(** * Facial-animation blending of the AI conversation app

    A shallow embedding of the lip-sync hook ([hooks/useLipSync.ts]), the
    animation-state hook ([useCharacterAnimation]) and the avatar component
    ([components/Character/Character.tsx]), with the properties the
    specification states about them.

    Conventions of the embedding:
    - a JavaScript [number] is a real number of [R]: arithmetic is exact, and
      rounding, infinities and NaN are outside the model;
    - a JavaScript object used as a dictionary is an association list in
      property-enumeration order (insertion order for the non-numeric keys
      used here);
    - a React state cell is a field of a record that the effect bodies
      transform; an effect with a dependency array runs on mount and after
      every render in which one of its dependencies changed, effects of one
      component running in declaration order;
    - an async handler runs up to its first [await]; what follows the
      [await] is a continuation that runs when the awaited call settles,
      other handlers and timers running in between;
    - code that may throw returns an [option], [None] being the exception. *)

From Stdlib Require Import Reals Lra Lia List String Ascii Bool Arith ZArith.
Import ListNotations.

Local Open Scope string_scope.
Local Open Scope list_scope.
Local Open Scope R_scope.

(** ** JavaScript objects as ordered dictionaries *)

Module JsObject.

Section Dict.
Context {V : Type}.

Definition t := list (string * V).

(** [o[k]] for an own property: the value of the first binding of [k]. *)
Fixpoint get (k : string) (o : t) : option V :=
  match o with
  | [] => None
  | (k', v) :: rest => if String.eqb k k' then Some v else get k rest
  end.

(** [o[k] = v]: an existing property keeps its place, a new one goes last. *)
Fixpoint set (k : string) (v : V) (o : t) : t :=
  match o with
  | [] => [(k, v)]
  | (k', v') :: rest =>
      if String.eqb k k' then (k', v) :: rest else (k', v') :: set k v rest
  end.

(** [Object.keys(o)], [Object.values(o)] and [Object.entries(o)]. *)
Definition keys (o : t) : list string := map fst o.

Definition values (o : t) : list V := map snd o.

Definition entries (o : t) : list (string * V) := o.

End Dict.

Arguments t : clear implicits.

(** [new Set(l)]: the elements of [l] in order of first occurrence. *)
Definition Set_add (acc : list string) (k : string) : list string :=
  if in_dec string_dec k acc then acc else acc ++ [k].

Definition Set_of (l : list string) : list string := fold_left Set_add l [].

(** Whether no name occurs twice in a list. *)
Fixpoint distinct (l : list string) : bool :=
  match l with
  | [] => true
  | x :: rest => negb (existsb (String.eqb x) rest) && distinct rest
  end.

End JsObject.

Definition dict (V : Type) : Type := JsObject.t V.

(** [x || 0] where [x] is the result of a property read that is a number or
    [undefined]: [undefined] and [0] both give [0], any other number itself. *)
Definition or_zero (x : option R) : R :=
  match x with
  | Some v => v
  | None => 0
  end.

(** ** hooks/useLipSync.ts *)

Module LipSync.

Record VisemeData := {
  phoneme : string;
  timestamp : R;
  duration : R;
  intensity : R
}.

Record UseLipSyncProps := {
  visemeData : option VisemeData;
  isSpeaking : bool;
  smoothing_prop : option R;
  intensity_prop : option R
}.

Record LipSyncState := {
  lipSyncMorphTargets : dict R;
  currentViseme : string;
  isActive : bool
}.

(** Default parameter values of the hook. *)
Definition smoothing (p : UseLipSyncProps) : R :=
  match smoothing_prop p with Some s => s | None => 0.3 end.
Definition intensityGain (p : UseLipSyncProps) : R :=
  match intensity_prop p with Some g => g | None => 1.0 end.

Definition VISEME_TO_MORPH_TARGET : dict (dict R) :=
  [ ("sil", []);
    ("aa", [("jawOpen", 0.7); ("mouthFunnel", 0.2)]);
    ("ae", [("jawOpen", 0.5); ("mouthStretch", 0.3)]);
    ("ah", [("jawOpen", 0.4); ("mouthShrugLower", 0.2)]);
    ("ao", [("mouthFunnel", 0.8); ("jawOpen", 0.3)]);
    ("aw", [("mouthFunnel", 0.9); ("jawOpen", 0.4)]);
    ("ay", [("jawOpen", 0.6); ("mouthSmileLeft", 0.3); ("mouthSmileRight", 0.3)]);
    ("b", [("mouthClose", 1.0); ("mouthPressLeft", 0.5); ("mouthPressRight", 0.5)]);
    ("ch", [("mouthShrugUpper", 0.7); ("jawOpen", 0.2)]);
    ("d", [("tongueOut", 0.6); ("jawOpen", 0.3)]);
    ("dh", [("tongueOut", 0.8); ("jawOpen", 0.2)]);
    ("eh", [("jawOpen", 0.5); ("mouthStretch", 0.2)]);
    ("er", [("mouthFunnel", 0.6); ("jawOpen", 0.3)]);
    ("ey", [("jawOpen", 0.4); ("mouthSmileLeft", 0.4); ("mouthSmileRight", 0.4)]);
    ("f", [("mouthLowerDownLeft", 0.8); ("mouthLowerDownRight", 0.8);
           ("mouthUpperUpLeft", 0.3); ("mouthUpperUpRight", 0.3)]);
    ("g", [("jawOpen", 0.4); ("mouthShrugLower", 0.3)]);
    ("hh", [("jawOpen", 0.3); ("mouthDimpleLeft", 0.2); ("mouthDimpleRight", 0.2)]);
    ("ih", [("mouthSmileLeft", 0.4); ("mouthSmileRight", 0.4); ("jawOpen", 0.2)]);
    ("iy", [("mouthSmileLeft", 0.7); ("mouthSmileRight", 0.7); ("jawOpen", 0.1)]);
    ("jh", [("mouthShrugUpper", 0.8); ("jawOpen", 0.3)]);
    ("k", [("jawOpen", 0.3); ("mouthShrugLower", 0.4)]);
    ("l", [("tongueOut", 0.7); ("jawOpen", 0.2)]);
    ("m", [("mouthClose", 1.0); ("mouthPressLeft", 0.7); ("mouthPressRight", 0.7)]);
    ("n", [("tongueOut", 0.5); ("mouthClose", 0.3)]);
    ("ng", [("jawOpen", 0.2); ("mouthShrugLower", 0.5)]);
    ("ow", [("mouthFunnel", 0.9); ("jawOpen", 0.4)]);
    ("oy", [("mouthFunnel", 0.7); ("mouthSmileLeft", 0.3); ("mouthSmileRight", 0.3)]);
    ("p", [("mouthClose", 1.0); ("mouthPressLeft", 0.8); ("mouthPressRight", 0.8)]);
    ("r", [("mouthFunnel", 0.6); ("jawOpen", 0.2)]);
    ("s", [("mouthShrugUpper", 0.6); ("mouthShrugLower", 0.3)]);
    ("sh", [("mouthShrugUpper", 0.8); ("mouthFunnel", 0.4)]);
    ("t", [("tongueOut", 0.6); ("jawOpen", 0.2)]);
    ("th", [("tongueOut", 0.9); ("jawOpen", 0.1)]);
    ("uh", [("mouthFunnel", 0.5); ("jawOpen", 0.3)]);
    ("uw", [("mouthFunnel", 1.0); ("jawOpen", 0.2)]);
    ("v", [("mouthLowerDownLeft", 0.9); ("mouthLowerDownRight", 0.9);
           ("mouthUpperUpLeft", 0.4); ("mouthUpperUpRight", 0.4)]);
    ("w", [("mouthFunnel", 0.9); ("mouthPucker", 0.7)]);
    ("y", [("mouthSmileLeft", 0.5); ("mouthSmileRight", 0.5); ("jawOpen", 0.2)]);
    ("z", [("mouthShrugUpper", 0.5); ("mouthShrugLower", 0.4)]);
    ("zh", [("mouthShrugUpper", 0.7); ("mouthFunnel", 0.3)]) ].

(** What a property read on the table can evaluate to. The table is an
    object literal, so a read of a name it does not own continues on
    [Object.prototype]: its members are built-in functions (and, for
    [__proto__], the prototype object itself), all truthy and none with an
    own enumerable property. *)
Inductive TableRead :=
| Undefined
| Shape (o : dict R)
| Builtin.

Definition Object_prototype_names : list string :=
  [ "constructor"; "hasOwnProperty"; "isPrototypeOf"; "propertyIsEnumerable";
    "toLocaleString"; "toString"; "valueOf"; "__proto__";
    "__defineGetter__"; "__defineSetter__"; "__lookupGetter__"; "__lookupSetter__" ].

(** [VISEME_TO_MORPH_TARGET[code]] *)
Definition table_read (code : string) : TableRead :=
  match JsObject.get code VISEME_TO_MORPH_TARGET with
  | Some o => Shape o
  | None =>
      if in_dec string_dec code Object_prototype_names then Builtin else Undefined
  end.

(** [v || {}] *)
Definition or_empty (v : TableRead) : TableRead :=
  match v with
  | Undefined => Shape []
  | _ => v
  end.

(** [Object.entries(v)]; it throws a TypeError on [undefined]. *)
Definition Object_entries (v : TableRead) : option (list (string * R)) :=
  match v with
  | Undefined => None
  | Shape o => Some (JsObject.entries o)
  | Builtin => Some []
  end.

Definition interpolateValue (current target factor : R) : R :=
  current + (target - current) * factor.

(** The loop that fills [scaledTargets]. *)
Definition scale_entries (gain : R) (v : VisemeData) (es : list (string * R)) : dict R :=
  fold_left
    (fun scaledTargets kv =>
       JsObject.set (fst kv) (snd kv * gain * intensity v) scaledTargets)
    es [].

(** The updater passed to [setLipSyncMorphTargets] while speaking. *)
Definition smooth_towards (factor : R) (scaledTargets prev : dict R) : dict R :=
  let allKeys :=
    JsObject.Set_of (JsObject.keys prev ++ JsObject.keys scaledTargets) in
  fold_left
    (fun newTargets key =>
       let currentValue := or_zero (JsObject.get key prev) in
       let targetValue := or_zero (JsObject.get key scaledTargets) in
       JsObject.set key (interpolateValue currentValue targetValue factor) newTargets)
    allKeys prev.

(** The updater passed to [setLipSyncMorphTargets] when not speaking. *)
Definition smooth_to_neutral (factor : R) (prev : dict R) : dict R :=
  fold_left
    (fun newTargets key =>
       JsObject.set key (interpolateValue (or_zero (JsObject.get key prev)) 0 factor)
         newTargets)
    (JsObject.keys prev) [].

(** The body of the effect that applies viseme data ([None]: it threw). *)
Definition apply_viseme (p : UseLipSyncProps) (st : LipSyncState) : option LipSyncState :=
  match isSpeaking p, visemeData p with
  | true, Some v =>
      let targetMorphs := or_empty (table_read (phoneme v)) in
      match Object_entries targetMorphs with
      | None => None
      | Some es =>
          let scaledTargets := scale_entries (intensityGain p) v es in
          Some {| lipSyncMorphTargets :=
                    smooth_towards (1 - smoothing p) scaledTargets (lipSyncMorphTargets st);
                  currentViseme := phoneme v;
                  isActive := true |}
      end
  | _, _ =>
      Some {| lipSyncMorphTargets :=
                smooth_to_neutral (1 - smoothing p) (lipSyncMorphTargets st);
              currentViseme := "sil";
              isActive := false |}
  end.


(** The state on mount. *)
Definition initial : LipSyncState :=
  {| lipSyncMorphTargets := []; currentViseme := "sil"; isActive := false |}.

(** Successive runs of the effect while the hook stays mounted. *)
Fixpoint run (ps : list UseLipSyncProps) (st : LipSyncState) : option LipSyncState :=
  match ps with
  | [] => Some st
  | p :: rest =>
      match apply_viseme p st with
      | Some st' => run rest st'
      | None => None
      end
  end.

(** The effect run [n] times on the same values of its inputs, each run
    after a render that changed a dependency (as a fresh event object with
    the same fields does). *)
Fixpoint repeat_run (n : nat) (p : UseLipSyncProps) (st : LipSyncState) : option LipSyncState :=
  match n with
  | O => Some st
  | S n' =>
      match apply_viseme p st with
      | Some st' => repeat_run n' p st'
      | None => None
      end
  end.

(** *** The notions the specification states the smoothing with *)

(** [weightsFor]: the table's own entry for a code, the empty set for a code
    the table does not list. *)
Definition weightsFor (code : string) : dict R :=
  match JsObject.get code VISEME_TO_MORPH_TARGET with
  | Some o => o
  | None => []
  end.

(** The weight of a channel in a map, 0 for a channel the map does not carry. *)
Definition weight_of (key : string) (o : dict R) : R := or_zero (JsObject.get key o).

(** The target of a channel during an event: the table value scaled by
    [intensityGain * event.intensity], 0 for a channel absent from the entry. *)
Definition target_weight (p : UseLipSyncProps) (v : VisemeData) (key : string) : R :=
  match JsObject.get key (weightsFor (phoneme v)) with
  | Some w => w * (intensityGain p * intensity v)
  | None => 0
  end.

(** The lip-sync map after [n] runs of the effect with the same inputs. *)
Definition weights_after (n : nat) (p : UseLipSyncProps) (st : LipSyncState) : dict R :=
  match repeat_run n p st with
  | Some st' => lipSyncMorphTargets st'
  | None => []
  end.

(** *** Ranges, channel names and silenced inputs *)

(** Every weight of a map lies in [0,1]. *)
Definition unit_weights (o : dict R) : Prop :=
  forall key, 0 <= weight_of key o <= 1.

(** Inputs within the conventional ranges: a smoothing factor in [0,1] and
    a product of gain and event intensity in [0,1]. *)
Definition in_range (p : UseLipSyncProps) : Prop :=
  0 <= smoothing p <= 1 /\
  forall v, visemeData p = Some v -> 0 <= intensityGain p * intensity v <= 1.

(** Whether a name is a channel of some entry of the table. *)
Definition is_table_channel (key : string) : bool :=
  existsb (fun e => existsb (String.eqb key) (JsObject.keys (snd e)))
    VISEME_TO_MORPH_TARGET.

(** The same props with speech off and no event. *)
Definition silenced (p : UseLipSyncProps) : UseLipSyncProps :=
  {| visemeData := None; isSpeaking := false;
     smoothing_prop := smoothing_prop p; intensity_prop := intensity_prop p |}.

(** *** The effect and its dependency array *)

(** A render of the hook: its props and, for the dependency check, whether
    [visemeData] is the very object the previous render was given
    (dependencies are compared with [Object.is], two objects being the same
    only by identity). *)
Record Render := {
  render_props : UseLipSyncProps;
  same_event_object : bool
}.

(** Whether every entry of the dependency array
    [[visemeData, isSpeaking, smoothing, intensity, interpolateValue]] is
    the one of the previous render ([interpolateValue] comes from a
    [useCallback] without dependencies and never changes). *)
Definition deps_unchanged (prev : UseLipSyncProps) (r : Render) : bool :=
  match visemeData prev, visemeData (render_props r) with
  | None, None => true
  | Some _, Some _ => same_event_object r
  | _, _ => false
  end
  && Bool.eqb (isSpeaking prev) (isSpeaking (render_props r))
  && (if Req_dec_T (smoothing prev) (smoothing (render_props r)) then true else false)
  && (if Req_dec_T (intensityGain prev) (intensityGain (render_props r))
      then true else false).

(** One render of the mounted hook: the effect runs after the first render
    ([prev] is [None]) and after a render that changed a dependency; any
    other render leaves the state as it is. *)
Definition hook_render (prev : option UseLipSyncProps) (r : Render)
    (st : LipSyncState) : option LipSyncState :=
  match prev with
  | Some q => if deps_unchanged q r then Some st else apply_viseme (render_props r) st
  | None => apply_viseme (render_props r) st
  end.

(** Successive renders, each compared with the one before it. *)
Fixpoint hook_renders (prev : option UseLipSyncProps) (rs : list Render)
    (st : LipSyncState) : option LipSyncState :=
  match rs with
  | [] => Some st
  | r :: rest =>
      match hook_render prev r st with
      | Some st' => hook_renders (Some (render_props r)) rest st'
      | None => None
      end
  end.

(** Whether each render of a list changes a dependency of the render before
    it, so that the effect runs after every one of them. *)
Fixpoint each_changes (prev : option UseLipSyncProps) (rs : list Render) : bool :=
  match rs with
  | [] => true
  | r :: rest =>
      match prev with
      | Some q => negb (deps_unchanged q r)
      | None => true
      end
      && each_changes (Some (render_props r)) rest
  end.




End LipSync.

(** ** The hook useCharacterAnimation *)

Module CharacterAnimation.

Record UseCharacterAnimationProps := {
  isListening : bool;
  isSpeaking : bool;
  emotion : string
}.

Record CharacterAnimationState := {
  currentAnimation : string;
  animationSpeed : R;
  bodyPose : string
}.

(** The three [useState] cells on mount. *)
Definition initial : CharacterAnimationState :=
  {| currentAnimation := "idle"; animationSpeed := 1.0; bodyPose := "neutral" |}.

(** Body of the first effect, dependencies [[isListening, isSpeaking]]. *)
Definition activity_effect (p : UseCharacterAnimationProps)
    (st : CharacterAnimationState) : CharacterAnimationState :=
  if isSpeaking p then
    {| currentAnimation := "talking"; animationSpeed := 1.2; bodyPose := "engaged" |}
  else if isListening p then
    {| currentAnimation := "listening"; animationSpeed := 0.8; bodyPose := "attentive" |}
  else
    {| currentAnimation := "idle"; animationSpeed := 1.0; bodyPose := "neutral" |}.

Definition with_pose_speed (pose : string) (speed : R)
    (st : CharacterAnimationState) : CharacterAnimationState :=
  {| currentAnimation := currentAnimation st;
     animationSpeed := speed;
     bodyPose := pose |}.

(** Body of the second effect, dependencies [[emotion]]. *)
Definition emotion_effect (p : UseCharacterAnimationProps)
    (st : CharacterAnimationState) : CharacterAnimationState :=
  if String.eqb (emotion p) "happy" then with_pose_speed "cheerful" 1.3 st
  else if String.eqb (emotion p) "sad" then with_pose_speed "dejected" 0.7 st
  else if String.eqb (emotion p) "excited" then with_pose_speed "energetic" 1.5 st
  else if String.eqb (emotion p) "calm" then with_pose_speed "relaxed" 0.9 st
  else st.

(** Whether a dependency array differs from the one of the previous render
    ([None]: there was none, the component is mounting). *)
Definition activity_deps_changed (prev : option UseCharacterAnimationProps)
    (p : UseCharacterAnimationProps) : bool :=
  match prev with
  | None => true
  | Some q =>
      negb (Bool.eqb (isListening q) (isListening p)
            && Bool.eqb (isSpeaking q) (isSpeaking p))
  end.

Definition emotion_deps_changed (prev : option UseCharacterAnimationProps)
    (p : UseCharacterAnimationProps) : bool :=
  match prev with
  | None => true
  | Some q => negb (String.eqb (emotion q) (emotion p))
  end.

(** The effects of one render, in declaration order. *)
Definition after_activity (prev : option UseCharacterAnimationProps)
    (p : UseCharacterAnimationProps) (st : CharacterAnimationState) :=
  if activity_deps_changed prev p then activity_effect p st else st.

Definition commit (prev : option UseCharacterAnimationProps)
    (p : UseCharacterAnimationProps) (st : CharacterAnimationState) :=
  let st1 := after_activity prev p st in
  if emotion_deps_changed prev p then emotion_effect p st1 else st1.

(** The state after a sequence of renders, [prev] being the props of the
    render before the first of them. *)
Fixpoint renders (prev : option UseCharacterAnimationProps)
    (ps : list UseCharacterAnimationProps) (st : CharacterAnimationState) :=
  match ps with
  | [] => st
  | p :: rest => renders (Some p) rest (commit prev p st)
  end.

(** The clip name the listening/speaking inputs ask for. *)
Definition clip_for (p : UseCharacterAnimationProps) : string :=
  if isSpeaking p then "talking" else if isListening p then "listening" else "idle".

(** The props of the last render of a history, if there was one. *)
Definition previous_props (history : list UseCharacterAnimationProps)
    : option UseCharacterAnimationProps :=
  last (map Some history) None.

(** Invariant of the renders: the clip name held is the one the props of the
    last render ask for. *)
Definition clip_follows (prev : option UseCharacterAnimationProps)
    (st : CharacterAnimationState) : Prop :=
  match prev with
  | None => True
  | Some q => currentAnimation st = clip_for q
  end.

(** The speed and the pose come from one and the same assignment of the two
    effects. *)
Definition paired (st : CharacterAnimationState) : Prop :=
  (animationSpeed st = 1.2 /\ bodyPose st = "engaged")
  \/ (animationSpeed st = 0.8 /\ bodyPose st = "attentive")
  \/ (animationSpeed st = 1.0 /\ bodyPose st = "neutral")
  \/ (animationSpeed st = 1.3 /\ bodyPose st = "cheerful")
  \/ (animationSpeed st = 0.7 /\ bodyPose st = "dejected")
  \/ (animationSpeed st = 1.5 /\ bodyPose st = "energetic")
  \/ (animationSpeed st = 0.9 /\ bodyPose st = "relaxed").

End CharacterAnimation.

(** ** Strings and arrays of the avatar component *)

Module JsString.

(** [toLowerCase] on the ASCII letters. *)
Definition lower_ascii (c : ascii) : ascii :=
  let n := nat_of_ascii c in
  if ((65 <=? n) && (n <=? 90))%nat then ascii_of_nat (n + 32) else c.

Fixpoint toLowerCase (s : string) : string :=
  match s with
  | EmptyString => EmptyString
  | String c rest => String (lower_ascii c) (toLowerCase rest)
  end.

(** [hay.includes(needle)] *)
Fixpoint includes (hay needle : string) : bool :=
  if String.prefix needle hay then true
  else match hay with
       | EmptyString => false
       | String _ rest => includes rest needle
       end.

End JsString.

Module JsArray.

(** An array of numbers; [None] is a hole, which reads as [undefined]. *)
Definition t := list (option R).

(** [a[i]] *)
Definition get (i : nat) (a : t) : option R :=
  match nth_error a i with
  | Some x => x
  | None => None
  end.

(** [a[i] = v]: a write past the end extends the array, leaving holes. *)
Fixpoint set (i : nat) (v : R) (a : t) : t :=
  match i, a with
  | O, [] => [Some v]
  | O, _ :: rest => Some v :: rest
  | S i', [] => None :: set i' v []
  | S i', x :: rest => x :: set i' v rest
  end.

End JsArray.

(** ** components/Character/Character.tsx: the component AvatarModel *)

Module Character.

Record AvatarMesh := {
  morphTargetInfluences : option JsArray.t;
  morphTargetDictionary : option (dict nat)
}.

(** [const index = dictionary[name]; if (index !== undefined) influences[index] = value] *)
Definition write_channel (dictionary : dict nat) (name : string) (value : R)
    (influences : JsArray.t) : JsArray.t :=
  match JsObject.get name dictionary with
  | Some index => JsArray.set index value influences
  | None => influences
  end.

(** A pass over the meshes that have both an influence array and a
    dictionary; the other meshes are skipped. *)
Definition on_morph_meshes (f : dict nat -> JsArray.t -> JsArray.t)
    (avatarMeshes : list AvatarMesh) : list AvatarMesh :=
  map (fun mesh =>
         match morphTargetInfluences mesh, morphTargetDictionary mesh with
         | Some influences, Some dictionary =>
             {| morphTargetInfluences := Some (f dictionary influences);
                morphTargetDictionary := Some dictionary |}
         | _, _ => mesh
         end)
      avatarMeshes.

(** *** Effect: apply lip sync morph targets *)

Definition lip_sync_pass (lipSyncMorphTargets : dict R) (dictionary : dict nat)
    (influences : JsArray.t) : JsArray.t :=
  fold_left
    (fun acc entry => write_channel dictionary (fst entry) (snd entry) acc)
    (JsObject.entries lipSyncMorphTargets) influences.

Definition apply_lip_sync (lipSyncMorphTargets : dict R)
    (avatarMeshes : list AvatarMesh) : list AvatarMesh :=
  match avatarMeshes with
  | [] => avatarMeshes
  | _ => on_morph_meshes (lip_sync_pass lipSyncMorphTargets) avatarMeshes
  end.

(** *** Effect: apply emotion-based expressions *)

Definition emotionTargets : list string :=
  [ "mouthSmileLeft"; "mouthSmileRight"; "mouthFrownLeft"; "mouthFrownRight";
    "jawOpen"; "eyeWideLeft"; "eyeWideRight" ].

Definition write_channels (dictionary : dict nat) (names : list string) (value : R)
    (influences : JsArray.t) : JsArray.t :=
  fold_left (fun acc target => write_channel dictionary target value acc)
    names influences.

Definition emotion_pass (emotion : string) (dictionary : dict nat)
    (influences : JsArray.t) : JsArray.t :=
  let cleared := write_channels dictionary emotionTargets 0 influences in
  if String.eqb emotion "happy" then
    write_channels dictionary ["mouthSmileLeft"; "mouthSmileRight"] 0.7 cleared
  else if String.eqb emotion "sad" then
    write_channels dictionary ["mouthFrownLeft"; "mouthFrownRight"] 0.5 cleared
  else if String.eqb emotion "surprised" then
    write_channel dictionary "eyeWideRight" 0.8
      (write_channel dictionary "eyeWideLeft" 0.8
         (write_channel dictionary "jawOpen" 0.3 cleared))
  else cleared.

Definition apply_emotion (emotion : string)
    (avatarMeshes : list AvatarMesh) : list AvatarMesh :=
  match avatarMeshes with
  | [] => avatarMeshes
  | _ => on_morph_meshes (emotion_pass emotion) avatarMeshes
  end.

(** The two morph-target effects of one render, in declaration order; a
    flag tells whether the dependency array of the effect changed. *)
Definition commit_morph_effects (lip_deps_changed emotion_deps_changed : bool)
    (lipSyncMorphTargets : dict R) (emotion : string)
    (avatarMeshes : list AvatarMesh) : list AvatarMesh :=
  let after_lip :=
    if lip_deps_changed then apply_lip_sync lipSyncMorphTargets avatarMeshes
    else avatarMeshes in
  if emotion_deps_changed then apply_emotion emotion after_lip else after_lip.

(** *** Frame callback: blinking *)

Definition blinkFrequency : R := 3.

Definition blinkDuration : R := 0.15.

(** Rounding toward zero, and the remainder [x % y] it defines. *)
Definition truncate (x : R) : Z :=
  if Rle_dec 0 x then Int_part x else (- Int_part (- x))%Z.

Definition js_rem (x y : R) : R := x - y * IZR (truncate (x / y)).

Definition blinkPhase (time : R) : R := js_rem time blinkFrequency / blinkFrequency.

Definition blinkAmount (time : R) : R :=
  sin (blinkPhase time / (blinkDuration / blinkFrequency) * PI).

Definition blink_pass (amount : R) (dictionary : dict nat)
    (influences : JsArray.t) : JsArray.t :=
  write_channel dictionary "eyeBlinkRight" amount
    (write_channel dictionary "eyeBlinkLeft" amount influences).

Definition blink_frame (time : R) (avatarMeshes : list AvatarMesh) : list AvatarMesh :=
  match avatarMeshes with
  | [] => avatarMeshes
  | _ =>
      if Rlt_dec (blinkPhase time) (blinkDuration / blinkFrequency) then
        on_morph_meshes (blink_pass (blinkAmount time)) avatarMeshes
      else avatarMeshes
  end.

(** *** Effect: handle animation changes *)

Record AnimationAction := {
  playing : bool;
  looping : bool;
  restarted : bool
}.

(** [action.stop()], [action.reset()], [action.setLoop(LoopRepeat, Infinity)]
    and [action.play()], as far as the flags above record them. *)
Definition stop (a : AnimationAction) : AnimationAction :=
  {| playing := false; looping := looping a; restarted := true |}.

Definition reset (a : AnimationAction) : AnimationAction :=
  {| playing := playing a; looping := looping a; restarted := true |}.

Definition setLoopRepeat (a : AnimationAction) : AnimationAction :=
  {| playing := playing a; looping := true; restarted := restarted a |}.

Definition play (a : AnimationAction) : AnimationAction :=
  {| playing := true; looping := looping a; restarted := restarted a |}.

Definition matches (animationName : string) (name : string) : bool :=
  JsString.includes (JsString.toLowerCase name) animationName.

(** The name the effect looks [targetAction] up under, if any. *)
Definition target_name (currentAnimation : string)
    (availableAnimations : list string) : option string :=
  let animationName := JsString.toLowerCase currentAnimation in
  if existsb (matches animationName) availableAnimations then
    find (matches animationName) availableAnimations
  else if existsb (matches "idle") availableAnimations then
    find (matches "idle") availableAnimations
  else None.

(** The effect, given whether [mixerRef.current] is set and the actions of
    [actionsRef.current]. *)
Definition handle_animation_change (mixer_ready : bool) (currentAnimation : string)
    (actions : dict AnimationAction) : dict AnimationAction :=
  if negb mixer_ready then actions
  else
    let stopped := map (fun entry => (fst entry, stop (snd entry))) actions in
    match target_name currentAnimation (JsObject.keys stopped) with
    | Some name =>
        match JsObject.get name stopped with
        | Some targetAction =>
            JsObject.set name (play (setLoopRepeat (reset targetAction))) stopped
        | None => stopped
        end
    | None => stopped
    end.

(** *** The notions the specification states the layers with *)

(** A dictionary that gives distinct channel names distinct indices. *)
Definition injective (dictionary : dict nat) : Prop :=
  forall c1 c2 i,
    JsObject.get c1 dictionary = Some i -> JsObject.get c2 dictionary = Some i -> c1 = c2.

(** The weight a mesh holds for a channel name. *)
Definition channel_weight (mesh : AvatarMesh) (channel : string) : option R :=
  match morphTargetInfluences mesh, morphTargetDictionary mesh with
  | Some influences, Some dictionary =>
      match JsObject.get channel dictionary with
      | Some index => JsArray.get index influences
      | None => None
      end
  | _, _ => None
  end.

Definition is_one_of (names : list string) (channel : string) : bool :=
  existsb (String.eqb channel) names.

(** The static override of an emotion tag on an expression channel. *)
Definition expression_weight (emotion channel : string) : R :=
  if String.eqb emotion "happy" then
    if is_one_of ["mouthSmileLeft"; "mouthSmileRight"] channel then 0.7 else 0
  else if String.eqb emotion "sad" then
    if is_one_of ["mouthFrownLeft"; "mouthFrownRight"] channel then 0.5 else 0
  else if String.eqb emotion "surprised" then
    if is_one_of ["eyeWideLeft"; "eyeWideRight"] channel then 0.8
    else if String.eqb channel "jawOpen" then 0.3 else 0
  else 0.

Definition eyeClosureChannels : list string := ["eyeBlinkLeft"; "eyeBlinkRight"].

(** The layering as the specification words it: the expression output as
    base, the lip-sync output over it, the blink value over both on the two
    eye-closure channels. *)
Definition layered (emotion : string) (lipSyncMorphTargets : dict R) (blink : R)
    (channel : string) : option R :=
  if is_one_of eyeClosureChannels channel then Some blink
  else
    match JsObject.get channel lipSyncMorphTargets with
    | Some v => Some v
    | None =>
        if is_one_of emotionTargets channel then Some (expression_weight emotion channel)
        else None
    end.

(** *** Effect: initialise avatar and animations *)

(** The action [mixer.clipAction(clip)] returns on a new mixer: not
    scheduled, and none of the calls the flags record made yet. *)
Definition fresh_action : AnimationAction :=
  {| playing := false; looping := false; restarted := false |}.

(** The body of the loop over [gltf.animations], for a clip of a given
    name, as [actionsRef.current] shows it: the action is stored under the
    name, and an idle-named clip is set to loop and played at once. An
    action that an earlier clip of the same name had stored there is
    replaced in the dictionary; [register_on_mixer] below keeps it among the
    actions made. *)
Definition register_clip (actions : dict AnimationAction) (name : string)
    : dict AnimationAction :=
  JsObject.set name
    (if matches "idle" name then play (setLoopRepeat fresh_action) else fresh_action)
    actions.

(** The part of the effect that fills [actionsRef.current], given whether
    [gltf] and [meshRef.current] are set and the names of
    [gltf.animations] (if the field is set). *)
Definition initialize_animations (ready : bool) (animations : option (list string))
    (actions : dict AnimationAction) : dict AnimationAction :=
  if negb ready then actions
  else
    match animations with
    | Some (clip :: clips) => fold_left register_clip (clip :: clips) actions
    | _ => actions
    end.

(** *** The actions of the mixers and the dictionary of [actionsRef]

    [actionsRef.current] holds one action under a clip name: the action of
    an earlier clip of the same name is replaced there, but it remains an
    action that [clipAction] has made and that [play] has started. The state
    below keeps both sides: every action made, with the name of its clip, in
    the order of the [clipAction] calls, and the dictionary, which holds
    under a name the position of the action stored there. *)
Record Animations := {
  made : list (string * AnimationAction);
  stored : dict nat
}.

Definition no_animations : Animations := {| made := []; stored := [] |}.

(** The body of the loop over [gltf.animations] on that state. *)
Definition register_on_mixer (s : Animations) (name : string) : Animations :=
  {| made :=
       made s
       ++ [(name,
            if matches "idle" name then play (setLoopRepeat fresh_action)
            else fresh_action)];
     stored := JsObject.set name (List.length (made s)) (stored s) |}.

Definition initialize_on_mixer (ready : bool) (animations : option (list string))
    (s : Animations) : Animations :=
  if negb ready then s
  else
    match animations with
    | Some (clip :: clips) => fold_left register_on_mixer (clip :: clips) s
    | _ => s
    end.

(** The action at a position of the list of actions made. *)
Definition action_at (s : Animations) (position : nat) : AnimationAction :=
  match nth_error (made s) position with
  | Some (_, action) => action
  | None => fresh_action
  end.

(** [actionsRef.current] as the effects read it: under each name the action
    at the stored position. *)
Definition stored_actions (s : Animations) : dict AnimationAction :=
  map (fun entry => (fst entry, action_at s (snd entry))) (stored s).

(** Every stored position is the position of an action made. *)
Definition positions_made (s : Animations) : Prop :=
  Forall (fun entry => (snd entry < List.length (made s))%nat) (stored s).

(** *** Frame callback: breathing *)

Record GroupPose := {
  position_y : R;
  rotation_y : R
}.

(** The breathing of the frame callback on [meshRef.current]. *)
Definition breathe (currentAnimation : string) (time : R) (group : option GroupPose)
    : option GroupPose :=
  match group with
  | Some g =>
      if String.eqb currentAnimation "idle" then
        Some {| position_y := position_y g + sin (time * 2) * 0.005;
                rotation_y := sin (time * 0.5) * 0.01 |}
      else group
  | None => None
  end.

(** The breathing over successive frames, at the given clock times. *)
Fixpoint breathe_frames (currentAnimation : string) (times : list R)
    (group : option GroupPose) : option GroupPose :=
  match times with
  | [] => group
  | time :: rest => breathe_frames currentAnimation rest (breathe currentAnimation time group)
  end.

(** *** Indices a pass can write *)

(** Whether an index is the one the dictionary gives to one of the names. *)
Definition index_of_one (dictionary : dict nat) (names : list string) (index : nat) : bool :=
  existsb (fun name =>
             match JsObject.get name dictionary with
             | Some i => Nat.eqb i index
             | None => false
             end) names.

(** Every index of the dictionary lies within the array. *)
Definition within (dictionary : dict nat) (influences : JsArray.t) : Prop :=
  forall name index,
    JsObject.get name dictionary = Some index -> (index < List.length influences)%nat.

(** None of the names is in the dictionary. *)
Definition lacks (dictionary : dict nat) (names : list string) : Prop :=
  forall name, In name names -> JsObject.get name dictionary = None.

End Character.

(** ** main.tsx: the component App *)

Module App.

Inductive ProcessingMode := Listening | Speaking | Idle.

Record AppState := {
  isListening : bool;
  isSpeaking : bool;
  currentEmotion : string;
  visemeData : option LipSync.VisemeData;
  processingMode : ProcessingMode;
  transcript : string;
  response : string
}.

(** The [useState] cells on mount. *)
Definition initial : AppState :=
  {| isListening := false; isSpeaking := false; currentEmotion := "neutral";
     visemeData := None; processingMode := Idle;
     transcript := EmptyString; response := EmptyString |}.

(** How an awaited [invoke] ends: with a result ([None] for a result that is
    not a string) or with a rejection, which the handler catches. *)
Inductive Invoked :=
| Resolved (result : option string)
| Rejected.

(** The [invoke] a handler is suspended at. The rest of the handler runs
    when the call settles; until then other handlers and timers run. The
    handler of [start_speaking] goes on to [simulateVisemeData], whose
    callback closes over the [isSpeaking] of the render that made the
    handler. *)
Inductive Call :=
| stop_listening
| start_listening
| stop_speaking
| start_speaking (isSpeaking_seen : bool).

(** What a handler leaves behind: the timeout of the demo transcript, the
    interval of [simulateVisemeData] with the [isSpeaking] its callback
    closes over and the [index] it has reached, or the handler itself,
    suspended at an [await]. *)
Inductive Pending :=
| DemoTranscript
| VisemeInterval (isSpeaking_seen : bool) (index : nat)
| Awaiting (call : Call).

Definition set_listening (l : bool) (m : ProcessingMode) (st : AppState) : AppState :=
  {| isListening := l; isSpeaking := isSpeaking st; currentEmotion := currentEmotion st;
     visemeData := visemeData st; processingMode := m;
     transcript := transcript st; response := response st |}.

Definition set_speaking (s : bool) (st : AppState) : AppState :=
  {| isListening := isListening st; isSpeaking := s; currentEmotion := currentEmotion st;
     visemeData := visemeData st; processingMode := processingMode st;
     transcript := transcript st; response := response st |}.

Definition set_mode (m : ProcessingMode) (st : AppState) : AppState :=
  {| isListening := isListening st; isSpeaking := isSpeaking st;
     currentEmotion := currentEmotion st;
     visemeData := visemeData st; processingMode := m;
     transcript := transcript st; response := response st |}.

Definition setVisemeData (v : option LipSync.VisemeData) (st : AppState) : AppState :=
  {| isListening := isListening st; isSpeaking := isSpeaking st;
     currentEmotion := currentEmotion st;
     visemeData := v; processingMode := processingMode st;
     transcript := transcript st; response := response st |}.

Definition setTranscript (t : string) (st : AppState) : AppState :=
  {| isListening := isListening st; isSpeaking := isSpeaking st;
     currentEmotion := currentEmotion st;
     visemeData := visemeData st; processingMode := processingMode st;
     transcript := t; response := response st |}.

Definition setCurrentEmotion (e : string) (st : AppState) : AppState :=
  {| isListening := isListening st; isSpeaking := isSpeaking st;
     currentEmotion := e;
     visemeData := visemeData st; processingMode := processingMode st;
     transcript := transcript st; response := response st |}.

(** A result that is a non-empty string is truthy. *)
Definition truthy (result : option string) : option string :=
  match result with
  | Some (String c rest) => Some (String c rest)
  | _ => None
  end.

(** [toggleListening] up to its first [await], run on the state of the
    render that made it, in a window with ([tauri]) or without the Tauri
    internals. *)
Definition toggleListening (tauri : bool) (st : AppState) : AppState * list Pending :=
  if isListening st then
    if tauri then (st, [Awaiting stop_listening])
    else (set_listening false Idle st, [])
  else
    let started := set_listening true Listening (set_speaking false st) in
    if tauri then (started, [Awaiting start_listening])
    else (started, [DemoTranscript]).

(** [toggleSpeaking] up to its first [await]; without the Tauri internals it
    goes straight on to [simulateVisemeData], whose interval closes over the
    [isSpeaking] of the same render. *)
Definition toggleSpeaking (tauri : bool) (st : AppState) : AppState * list Pending :=
  if isSpeaking st then
    if tauri then (st, [Awaiting stop_speaking])
    else (setVisemeData None (set_mode Idle (set_speaking false st)), [])
  else
    let started :=
      set_mode Speaking (set_speaking true (set_listening false (processingMode st) st)) in
    if tauri then (started, [Awaiting (start_speaking (isSpeaking st))])
    else (started, [VisemeInterval (isSpeaking st) 0]).

(** The rest of a handler once its [invoke] has settled, run on the state of
    that moment: the statements after the [await], or the catch block. *)
Definition resume (call : Call) (reply : Invoked) (st : AppState)
    : AppState * list Pending :=
  match call with
  | stop_listening =>
      (* the catch block repeats the two calls *)
      (set_listening false Idle st, [])
  | start_listening =>
      match reply with
      | Resolved result =>
          match truthy result with
          | Some text => (setTranscript text st, [])
          | None => (st, [])
          end
      | Rejected => (set_listening false Idle st, [])
      end
  | stop_speaking =>
      (* here too the catch block repeats the three calls *)
      (setVisemeData None (set_mode Idle (set_speaking false st)), [])
  | start_speaking seen =>
      match reply with
      | Resolved _ => (st, [VisemeInterval seen 0])
      | Rejected => (setVisemeData None (set_mode Idle (set_speaking false st)), [])
      end
  end.

Definition visemes : list string :=
  ["aa"; "eh"; "ih"; "oh"; "uw"; "b"; "m"; "f"; "th"; "s"].

(** The values of [Date.now()] and [Math.random()] at a tick. *)
Record Tick := {
  now : R;
  random : R
}.

(** One run of the interval callback: the value it gives to
    [setVisemeData], and the interval that remains, if it does not clear
    itself. *)
Definition interval_tick (isSpeaking_seen : bool) (index : nat) (t : Tick)
    : option LipSync.VisemeData * option Pending :=
  if (index <? List.length visemes)%nat && isSpeaking_seen then
    (Some {| LipSync.phoneme := nth index visemes EmptyString;
             LipSync.timestamp := now t;
             LipSync.duration := 200;
             LipSync.intensity := 0.8 + random t * 0.2 |},
     Some (VisemeInterval isSpeaking_seen (S index)))
  else (None, None).

(** What can happen to the component: a call of a handler, an emotion
    change (from [changeEmotion] or the event listener), the firing of the
    timer at a position of the list of pending work, or the settling of the
    [invoke] a handler awaits at a position of that list. *)
Inductive Event :=
| ToggleListening (tauri : bool)
| ToggleSpeaking (tauri : bool)
| EmotionChanged (emotion : string)
| Fire (position : nat) (t : Tick)
| Settle (position : nat) (reply : Invoked).

Definition demo_transcript : string := "This is a demo transcript in development mode".

Fixpoint fire (position : nat) (t : Tick) (pending : list Pending) (st : AppState)
    : AppState * list Pending :=
  match position, pending with
  | _, [] => (st, [])
  | O, DemoTranscript :: rest => (setTranscript demo_transcript st, rest)
  | O, VisemeInterval seen index :: rest =>
      match interval_tick seen index t with
      | (v, Some timer) => (setVisemeData v st, timer :: rest)
      | (v, None) => (setVisemeData v st, rest)
      end
  | O, Awaiting call :: rest => (st, Awaiting call :: rest)
  | S position', work :: rest =>
      let (st', rest') := fire position' t rest st in (st', work :: rest')
  end.

Fixpoint settle (position : nat) (reply : Invoked) (pending : list Pending)
    (st : AppState) : AppState * list Pending :=
  match position, pending with
  | _, [] => (st, [])
  | O, Awaiting call :: rest =>
      let (st', started) := resume call reply st in (st', started ++ rest)
  | O, work :: rest => (st, work :: rest)
  | S position', work :: rest =>
      let (st', rest') := settle position' reply rest st in (st', work :: rest')
  end.

(** The component with its pending work. A handler is taken to start on the
    current state, that is, the render that follows an event has happened
    before the next handler is called; between the [await] of a handler and
    its continuation any other event may happen. *)
Definition step (sys : AppState * list Pending) (e : Event) : AppState * list Pending :=
  let (st, pending) := sys in
  match e with
  | ToggleListening tauri =>
      let (st', started) := toggleListening tauri st in (st', pending ++ started)
  | ToggleSpeaking tauri =>
      let (st', started) := toggleSpeaking tauri st in (st', pending ++ started)
  | EmotionChanged emotion => (setCurrentEmotion emotion st, pending)
  | Fire position t => fire position t pending st
  | Settle position reply => settle position reply pending st
  end.

Definition reach (events : list Event) : AppState * list Pending :=
  fold_left step events (initial, []).

(** Listening and speaking exclude each other and the processing mode
    names the one that is on. *)
Definition coherent (st : AppState) : Prop :=
  processingMode st
  = (if isSpeaking st then Speaking else if isListening st then Listening else Idle)
  /\ (isListening st && isSpeaking st = false).

(** Listening and speaking exclude each other, and a processing mode other
    than idle names a flag that is on. *)
Definition exclusive (st : AppState) : Prop :=
  isListening st && isSpeaking st = false
  /\ (processingMode st = Speaking -> isSpeaking st = true)
  /\ (processingMode st = Listening -> isListening st = true).

(** Whether an event is a handler called in a window with the Tauri
    internals, where the handler awaits an [invoke]. *)
Definition uses_tauri (e : Event) : bool :=
  match e with
  | ToggleListening tauri | ToggleSpeaking tauri => tauri
  | _ => false
  end.

(** The props the avatar hands to [useLipSync]: the viseme data and the
    speaking flag, with the defaults for the rest. *)
Definition lip_sync_props (st : AppState) : LipSync.UseLipSyncProps :=
  {| LipSync.visemeData := visemeData st;
     LipSync.isSpeaking := isSpeaking st;
     LipSync.smoothing_prop := None;
     LipSync.intensity_prop := None |}.

(** The work a handler can have left behind: the interval of the viseme
    simulation always sees [isSpeaking] false and is at index 0, and so will
    the one a suspended [toggleSpeaking] starts. *)
Definition idle_timer (work : Pending) : Prop :=
  match work with
  | DemoTranscript => True
  | VisemeInterval seen index => seen = false /\ index = 0%nat
  | Awaiting (start_speaking seen) => seen = false
  | Awaiting _ => True
  end.

(** The invariant of the component with its pending work. *)
Definition settled (sys : AppState * list Pending) : Prop :=
  visemeData (fst sys) = None /\ Forall idle_timer (snd sys).

(** No handler is suspended at an [await]. *)
Definition none_awaiting (pending : list Pending) : Prop :=
  Forall (fun work => match work with Awaiting _ => False | _ => True end) pending.

End App.



(** * Properties *)

(** ** Dictionaries and arrays *)

Section DictFacts.
Context {V : Type}.
Implicit Types (o : dict V) (k : string) (v : V).

Lemma get_set_same k v o : JsObject.get k (JsObject.set k v o) = Some v.
Proof.
  induction o as [|[k' v'] rest IH]; simpl.
  - now rewrite String.eqb_refl.
  - destruct (String.eqb k k') eqn:E; simpl; rewrite E; auto.
Qed.

Lemma get_set_other k k' v o :
  k <> k' -> JsObject.get k (JsObject.set k' v o) = JsObject.get k o.
Proof.
  intros Hne. induction o as [|[k0 v0] rest IH]; simpl.
  - destruct (String.eqb_spec k k'); congruence.
  - destruct (String.eqb_spec k' k0) as [->|Hk0]; simpl.
    + destruct (String.eqb_spec k k0); congruence.
    + now rewrite IH.
Qed.

Lemma keys_set k k' v o :
  In k (JsObject.keys (JsObject.set k' v o)) <-> k = k' \/ In k (JsObject.keys o).
Proof.
  unfold JsObject.keys. induction o as [|[k0 v0] rest IH]; simpl.
  - intuition.
  - destruct (String.eqb_spec k' k0) as [->|Hk0]; simpl.
    + intuition.
    + rewrite IH. intuition.
Qed.

Lemma get_keys k o : In k (JsObject.keys o) <-> exists v, JsObject.get k o = Some v.
Proof.
  unfold JsObject.keys. induction o as [|[k0 v0] rest IH]; simpl.
  - split; [tauto | intros [v Hv]; discriminate].
  - destruct (String.eqb_spec k k0) as [->|Hne].
    + split; eauto.
    + rewrite <- IH. intuition congruence.
Qed.

Lemma get_None_keys k o : JsObject.get k o = None <-> ~ In k (JsObject.keys o).
Proof.
  rewrite get_keys. destruct (JsObject.get k o) as [v|].
  - split; [discriminate | intros H; exfalso; eauto].
  - split; [intros _ [v Hv]; discriminate | reflexivity].
Qed.

(** A [forEach] over keys that assigns [f key] to each of them. *)
Lemma get_assign_each (f : string -> V) ks : forall o k,
  JsObject.get k (fold_left (fun acc key => JsObject.set key (f key) acc) ks o)
  = if in_dec string_dec k ks then Some (f k) else JsObject.get k o.
Proof.
  induction ks as [|a ks IH]; intros o k; simpl fold_left.
  - reflexivity.
  - rewrite IH. destruct (in_dec string_dec k ks) as [Hin|Hout].
    + destruct (in_dec string_dec k (a :: ks)) as [_|Hno]; [reflexivity|].
      exfalso. apply Hno. now right.
    + destruct (string_dec k a) as [->|Hne].
      * rewrite get_set_same.
        destruct (in_dec string_dec a (a :: ks)) as [_|Hno]; [reflexivity|].
        exfalso. apply Hno. now left.
      * rewrite get_set_other by assumption.
        destruct (in_dec string_dec k (a :: ks)) as [[Heq|Hin]|_]; congruence.
Qed.

Lemma keys_assign_each (f : string -> V) ks : forall o k,
  In k (JsObject.keys (fold_left (fun acc key => JsObject.set key (f key) acc) ks o))
  <-> In k ks \/ In k (JsObject.keys o).
Proof.
  induction ks as [|a ks IH]; intros o k; simpl.
  - tauto.
  - rewrite IH, keys_set. intuition.
Qed.

Lemma NoDup_keys_set k v o :
  NoDup (JsObject.keys o) -> NoDup (JsObject.keys (JsObject.set k v o)).
Proof.
  induction o as [|[k0 v0] rest IH]; intros Hnd.
  - simpl. constructor; [tauto | constructor].
  - simpl. destruct (String.eqb_spec k k0) as [->|Hne]; [exact Hnd|].
    change (NoDup (k0 :: JsObject.keys (JsObject.set k v rest))).
    change (NoDup (k0 :: JsObject.keys rest)) in Hnd.
    inversion Hnd as [|? ? Hfresh Hnd']; subst.
    constructor; [|auto].
    rewrite keys_set. intros [Heq|Hin]; [congruence | contradiction].
Qed.

Lemma NoDup_assign_each (f : string -> V) ks : forall o,
  NoDup (JsObject.keys o) ->
  NoDup (JsObject.keys (fold_left (fun acc key => JsObject.set key (f key) acc) ks o)).
Proof.
  induction ks as [|a ks IH]; intros o Hnd; simpl; [exact Hnd|].
  apply IH. now apply NoDup_keys_set.
Qed.


End DictFacts.

Lemma Set_of_from l : forall acc k,
  In k (fold_left JsObject.Set_add l acc) <-> In k acc \/ In k l.
Proof.
  induction l as [|x l IH]; simpl; intros acc k.
  - tauto.
  - rewrite IH. unfold JsObject.Set_add.
    destruct (in_dec string_dec x acc) as [Hin|Hout].
    + split; [tauto|]. intros [H|[->|H]]; auto.
    + rewrite in_app_iff. simpl. intuition.
Qed.

Lemma In_Set_of l k : In k (JsObject.Set_of l) <-> In k l.
Proof. unfold JsObject.Set_of. rewrite Set_of_from. simpl. tauto. Qed.

Lemma array_get_set i v : forall a j,
  JsArray.get j (JsArray.set i v a) = if Nat.eqb i j then Some v else JsArray.get j a.
Proof.
  unfold JsArray.get.
  induction i as [|i IH]; intros [|x a] [|j]; simpl; try reflexivity.
  - now destruct j.
  - rewrite IH. destruct (Nat.eqb i j); [reflexivity|]. now destruct j.
  - apply IH.
Qed.

Lemma distinct_NoDup l : JsObject.distinct l = true -> NoDup l.
Proof.
  induction l as [|x l IH]; simpl; intros H.
  - constructor.
  - apply andb_prop in H as [Hx Hl]. constructor; [|auto].
    intros Hin. apply negb_true_iff in Hx.
    assert (existsb (String.eqb x) l = true) as E; [|congruence].
    apply existsb_exists. exists x. split; [assumption | apply String.eqb_refl].
Qed.

Section DictListFacts.
Context {V : Type}.
Implicit Types (o : dict V) (k : string) (v : V).

Lemma get_In k v o : JsObject.get k o = Some v -> In (k, v) o.
Proof.
  induction o as [|[k0 v0] rest IH]; simpl; [discriminate|].
  destruct (String.eqb_spec k k0) as [->|Hne].
  - intros [= ->]. now left.
  - intros H. right. auto.
Qed.

Lemma set_fresh k v o :
  ~ In k (JsObject.keys o) -> JsObject.set k v o = o ++ [(k, v)].
Proof.
  unfold JsObject.keys. induction o as [|[k0 v0] rest IH]; simpl; intros Hout.
  - reflexivity.
  - destruct (String.eqb_spec k k0) as [->|Hne]; [tauto|].
    rewrite IH; tauto.
Qed.

Lemma get_map_values (g : V -> V) k o :
  JsObject.get k (map (fun kv => (fst kv, g (snd kv))) o)
  = option_map g (JsObject.get k o).
Proof.
  induction o as [|[k0 v0] rest IH]; simpl; [reflexivity|].
  destruct (String.eqb k k0); [reflexivity | exact IH].
Qed.

Lemma keys_map_values (g : V -> V) o :
  JsObject.keys (map (fun kv => (fst kv, g (snd kv))) o) = JsObject.keys o.
Proof. unfold JsObject.keys. rewrite map_map. reflexivity. Qed.

(** A [forEach] over distinct entries that assigns [g value] under each key
    builds the entries in order. *)
Lemma assign_entries_from (g : V -> V) es : forall acc,
  NoDup (JsObject.keys acc ++ JsObject.keys es) ->
  fold_left (fun o kv => JsObject.set (fst kv) (g (snd kv)) o) es acc
  = acc ++ map (fun kv => (fst kv, g (snd kv))) es.
Proof.
  induction es as [|[k v] es IH]; intros acc Hnd; simpl.
  - now rewrite app_nil_r.
  - assert (~ In k (JsObject.keys acc)) as Hfresh.
    { intros Hin. simpl in Hnd. apply NoDup_remove_2 in Hnd.
      apply Hnd. apply in_or_app. now left. }
    rewrite set_fresh by assumption. rewrite IH.
    + now rewrite <- app_assoc.
    + unfold JsObject.keys in *. rewrite map_app, <- app_assoc. exact Hnd.
Qed.

End DictListFacts.

(** ** Enumeration order of a dictionary under assignments *)

Section DictOrderFacts.
Context {V : Type}.
Implicit Types (o : dict V) (k : string) (v : V).

Lemma keys_set_as_Set_add k v o :
  JsObject.keys (JsObject.set k v o) = JsObject.Set_add (JsObject.keys o) k.
Proof.
  unfold JsObject.Set_add, JsObject.keys.
  induction o as [|[k0 v0] rest IH]; cbn [JsObject.set map fst].
  - destruct (in_dec string_dec k []) as [[]|_]. reflexivity.
  - destruct (String.eqb_spec k k0) as [->|Hne]; cbn [map fst].
    + destruct (in_dec string_dec k0 (k0 :: map fst rest)) as [_|Hn]; [reflexivity|].
      exfalso. apply Hn. now left.
    + rewrite IH.
      destruct (in_dec string_dec k (map fst rest)) as [Hin|Hout];
        destruct (in_dec string_dec k (k0 :: map fst rest)) as [Hin'|Hout'];
        try reflexivity.
      * exfalso. apply Hout'. now right.
      * exfalso. destruct Hin' as [Heq|Hin']; [congruence | contradiction].
Qed.

Lemma keys_assign_each_in_order (f : string -> V) ks : forall o,
  JsObject.keys (fold_left (fun acc key => JsObject.set key (f key) acc) ks o)
  = fold_left JsObject.Set_add ks (JsObject.keys o).
Proof.
  induction ks as [|a ks IH]; intros o; simpl; [reflexivity|].
  now rewrite IH, keys_set_as_Set_add.
Qed.

End DictOrderFacts.

Lemma Set_add_present l acc :
  (forall k, In k l -> In k acc) -> fold_left JsObject.Set_add l acc = acc.
Proof.
  induction l as [|x l IH]; intros Hall; simpl; [reflexivity|].
  unfold JsObject.Set_add at 2.
  destruct (in_dec string_dec x acc) as [_|Hout].
  - apply IH. intros k Hk. apply Hall. now right.
  - exfalso. apply Hout, Hall. now left.
Qed.

Lemma Set_add_new_names l : forall acc,
  NoDup l ->
  fold_left JsObject.Set_add l acc
  = acc ++ filter (fun k => negb (existsb (String.eqb k) acc)) l.
Proof.
  induction l as [|x l IH]; intros acc Hnd; simpl.
  - now rewrite app_nil_r.
  - inversion Hnd as [|? ? Hfresh Hnd']; subst.
    unfold JsObject.Set_add at 2.
    destruct (in_dec string_dec x acc) as [Hin|Hout].
    + assert (existsb (String.eqb x) acc = true) as ->.
      { apply existsb_exists. exists x. split; [exact Hin | apply String.eqb_refl]. }
      simpl. now apply IH.
    + assert (existsb (String.eqb x) acc = false) as ->.
      { destruct (existsb (String.eqb x) acc) eqn:E; [|reflexivity].
        exfalso. apply Hout. apply existsb_exists in E as (y & Hy & Heq).
        apply String.eqb_eq in Heq. now subst. }
      simpl. rewrite IH by assumption. rewrite <- app_assoc. simpl. do 2 f_equal.
      apply filter_ext_in. intros k Hk.
      rewrite existsb_app. simpl.
      destruct (String.eqb_spec k x) as [->|_]; [contradiction|].
      now rewrite !orb_false_r.
Qed.


(** ** The lip-sync hook *)

Module LipSyncFacts.
Import LipSync.

Lemma table_entries_distinct :
  forallb (fun e => JsObject.distinct (JsObject.keys (snd e))) VISEME_TO_MORPH_TARGET = true.
Proof. reflexivity. Qed.

Lemma weightsFor_NoDup code : NoDup (JsObject.keys (weightsFor code)).
Proof.
  unfold weightsFor.
  destruct (JsObject.get code VISEME_TO_MORPH_TARGET) as [o|] eqn:E; [|constructor].
  apply distinct_NoDup. apply get_In in E.
  pose proof table_entries_distinct as H. rewrite forallb_forall in H.
  exact (H _ E).
Qed.

(** The guarded table read never makes [Object.entries] throw. *)
Lemma entries_of_table_read code :
  Object_entries (or_empty (table_read code)) = Some (weightsFor code).
Proof.
  unfold table_read, weightsFor.
  destruct (JsObject.get code VISEME_TO_MORPH_TARGET) as [o|]; [reflexivity|].
  now destruct (in_dec string_dec code Object_prototype_names).
Qed.

Lemma scale_entries_weightsFor gain v :
  scale_entries gain v (weightsFor (phoneme v))
  = map (fun kv => (fst kv, snd kv * gain * intensity v)) (weightsFor (phoneme v)).
Proof.
  unfold scale_entries.
  rewrite (assign_entries_from (fun w => w * gain * intensity v)); [reflexivity|].
  simpl. apply weightsFor_NoDup.
Qed.

Lemma weight_of_scaled p v key :
  weight_of key (scale_entries (intensityGain p) v (weightsFor (phoneme v)))
  = target_weight p v key.
Proof.
  unfold weight_of, target_weight. rewrite scale_entries_weightsFor.
  rewrite (get_map_values (fun w => w * intensityGain p * intensity v)).
  destruct (JsObject.get key (weightsFor (phoneme v))); simpl; [ring | reflexivity].
Qed.

Lemma keys_scaled gain v :
  JsObject.keys (scale_entries gain v (weightsFor (phoneme v)))
  = JsObject.keys (weightsFor (phoneme v)).
Proof.
  rewrite scale_entries_weightsFor.
  apply (keys_map_values (fun w => w * gain * intensity v)).
Qed.

Lemma apply_viseme_speaking p v st :
  isSpeaking p = true -> visemeData p = Some v ->
  apply_viseme p st
  = Some {| lipSyncMorphTargets :=
              smooth_towards (1 - smoothing p)
                (scale_entries (intensityGain p) v (weightsFor (phoneme v)))
                (lipSyncMorphTargets st);
            currentViseme := phoneme v;
            isActive := true |}.
Proof.
  intros Hs Hv. unfold apply_viseme. rewrite Hs, Hv, entries_of_table_read. reflexivity.
Qed.

Lemma apply_viseme_silent p st :
  isSpeaking p = false \/ visemeData p = None ->
  apply_viseme p st
  = Some {| lipSyncMorphTargets :=
              smooth_to_neutral (1 - smoothing p) (lipSyncMorphTargets st);
            currentViseme := "sil";
            isActive := false |}.
Proof.
  unfold apply_viseme. intros [H|H]; rewrite H; [reflexivity|].
  now destruct (isSpeaking p).
Qed.

Lemma keys_smooth_towards factor scaled prev key :
  In key (JsObject.keys (smooth_towards factor scaled prev))
  <-> In key (JsObject.keys prev) \/ In key (JsObject.keys scaled).
Proof.
  unfold smooth_towards.
  rewrite (keys_assign_each
             (fun key => interpolateValue (or_zero (JsObject.get key prev))
                           (or_zero (JsObject.get key scaled)) factor)).
  rewrite In_Set_of, in_app_iff. tauto.
Qed.

Lemma get_smooth_towards factor scaled prev key :
  In key (JsObject.keys prev) \/ In key (JsObject.keys scaled) ->
  JsObject.get key (smooth_towards factor scaled prev)
  = Some (interpolateValue (weight_of key prev) (weight_of key scaled) factor).
Proof.
  intros Hin. unfold smooth_towards.
  rewrite (get_assign_each
             (fun key => interpolateValue (or_zero (JsObject.get key prev))
                           (or_zero (JsObject.get key scaled)) factor)).
  destruct (in_dec string_dec key _) as [_|Hout]; [reflexivity|].
  exfalso. apply Hout. rewrite In_Set_of, in_app_iff. exact Hin.
Qed.

Lemma weight_smooth_towards factor scaled prev key :
  weight_of key (smooth_towards factor scaled prev)
  = interpolateValue (weight_of key prev) (weight_of key scaled) factor.
Proof.
  destruct (in_dec string_dec key (JsObject.keys prev ++ JsObject.keys scaled)) as [Hin|Hout].
  - rewrite in_app_iff in Hin. unfold weight_of at 1.
    now rewrite get_smooth_towards.
  - assert (JsObject.get key (smooth_towards factor scaled prev) = None) as E1.
    { apply get_None_keys. rewrite keys_smooth_towards, <- in_app_iff. exact Hout. }
    rewrite in_app_iff in Hout.
    assert (JsObject.get key prev = None) as E2 by (apply get_None_keys; tauto).
    assert (JsObject.get key scaled = None) as E3 by (apply get_None_keys; tauto).
    unfold weight_of, interpolateValue. rewrite E1, E2, E3. simpl. ring.
Qed.

Lemma keys_smooth_to_neutral factor prev key :
  In key (JsObject.keys (smooth_to_neutral factor prev)) <-> In key (JsObject.keys prev).
Proof.
  unfold smooth_to_neutral.
  rewrite (keys_assign_each
             (fun key => interpolateValue (or_zero (JsObject.get key prev)) 0 factor)).
  simpl. tauto.
Qed.

Lemma get_smooth_to_neutral factor prev key :
  JsObject.get key (smooth_to_neutral factor prev)
  = option_map (fun w => interpolateValue w 0 factor) (JsObject.get key prev).
Proof.
  unfold smooth_to_neutral.
  rewrite (get_assign_each
             (fun key => interpolateValue (or_zero (JsObject.get key prev)) 0 factor)).
  destruct (in_dec string_dec key (JsObject.keys prev)) as [Hin|Hout].
  - apply get_keys in Hin as [w ->]. reflexivity.
  - apply get_None_keys in Hout. now rewrite Hout.
Qed.

(** The map the hook holds is a well-formed object: from the initial state
    on, no channel name occurs twice in it. *)
Lemma apply_viseme_keys_distinct p st st' :
  NoDup (JsObject.keys (lipSyncMorphTargets st)) ->
  apply_viseme p st = Some st' ->
  NoDup (JsObject.keys (lipSyncMorphTargets st')).
Proof.
  intros Hnd. unfold apply_viseme.
  destruct (isSpeaking p); [destruct (visemeData p) as [v|]|].
  - destruct (Object_entries _); [|discriminate]. intros [= <-].
    cbn [lipSyncMorphTargets]. unfold smooth_towards.
    now apply (NoDup_assign_each
                 (fun key => interpolateValue _ _ _)).
  - intros [= <-]. cbn [lipSyncMorphTargets]. unfold smooth_to_neutral.
    apply (NoDup_assign_each
             (fun key => interpolateValue
                           (or_zero (JsObject.get key (lipSyncMorphTargets st))) 0
                           (1 - smoothing p))).
    constructor.
  - intros [= <-]. cbn [lipSyncMorphTargets]. unfold smooth_to_neutral.
    apply (NoDup_assign_each
             (fun key => interpolateValue
                           (or_zero (JsObject.get key (lipSyncMorphTargets st))) 0
                           (1 - smoothing p))).
    constructor.
Qed.

Lemma run_keys_distinct ps : forall st st',
  NoDup (JsObject.keys (lipSyncMorphTargets st)) ->
  run ps st = Some st' ->
  NoDup (JsObject.keys (lipSyncMorphTargets st')).
Proof.
  induction ps as [|p ps IH]; intros st st' Hnd; simpl.
  - now intros [= <-].
  - destruct (apply_viseme p st) as [st1|] eqn:E; [|discriminate].
    apply IH. exact (apply_viseme_keys_distinct p st st1 Hnd E).
Qed.


Example table_read_cases :
  table_read "sil" = Shape []
  /\ table_read "aa" = Shape [("jawOpen", 0.7); ("mouthFunnel", 0.2)]
  /\ table_read "toString" = Builtin
  /\ table_read "AA" = Undefined.
Proof. repeat split. Qed.

Example Set_of_first_occurrences :
  JsObject.Set_of ["jawOpen"; "mouthFunnel"; "jawOpen"; "tongueOut"]
  = ["jawOpen"; "mouthFunnel"; "tongueOut"].
Proof. reflexivity. Qed.

(** The first update of "aa" from the empty map, then "d": the new channel
    goes last and the channel that left the target set is kept. *)
Example channel_order_after_two_events :
  let aa := {| phoneme := "aa"; timestamp := 0; duration := 0.1; intensity := 1 |} in
  let d := {| phoneme := "d"; timestamp := 0.1; duration := 0.1; intensity := 1 |} in
  JsObject.keys
    (smooth_towards 0.7 (scale_entries 1 d (weightsFor "d"))
       (smooth_towards 0.7 (scale_entries 1 aa (weightsFor "aa")) []))
  = ["jawOpen"; "mouthFunnel"; "tongueOut"].
Proof. reflexivity. Qed.


(** C7. A phoneme code the table does not list resolves to the empty channel
    set without an exception: the guarded read yields no entries, also for a
    code that names a member of [Object.prototype], and the update then runs
    with an empty target set. *)
Theorem unknown_code_resolves_to_empty_set code :
  JsObject.get code VISEME_TO_MORPH_TARGET = None ->
  Object_entries (or_empty (table_read code)) = Some [] /\
  weightsFor code = [] /\
  forall p v st,
    isSpeaking p = true -> visemeData p = Some v -> phoneme v = code ->
    apply_viseme p st
    = Some {| lipSyncMorphTargets :=
                smooth_towards (1 - smoothing p) [] (lipSyncMorphTargets st);
              currentViseme := code;
              isActive := true |}.
Proof.
  intros Hnone.
  assert (weightsFor code = []) as Hw by (unfold weightsFor; now rewrite Hnone).
  split; [|split].
  - now rewrite entries_of_table_read, Hw.
  - exact Hw.
  - intros p v st Hs Hv Hc. rewrite (apply_viseme_speaking p v st Hs Hv).
    rewrite Hc, Hw. reflexivity.
Qed.

Lemma unknown_code_witness :
  Object_entries (or_empty (table_read "toString")) = Some [] /\
  Object_entries (or_empty (table_read "xx")) = Some [].
Proof.
  split.
  - exact (proj1 (unknown_code_resolves_to_empty_set "toString" eq_refl)).
  - exact (proj1 (unknown_code_resolves_to_empty_set "xx" eq_refl)).
Defined.

(** C1. While speaking with an active event, the update carries exactly the
    channels of the previous map and of the table entry of the event's code,
    and the new weight of each of them is
    [old + (target - old) * (1 - smoothing)], the target being the table
    value scaled by [intensityGain * event.intensity] (0 for a channel absent
    from the entry). For "aa" at event intensity 1.0, smoothing 0.3, gain 1.0
    and a previous jaw-open weight of 0 the new jaw-open weight is 0.49. *)
Theorem speaking_update_smooths_each_channel p v st :
  isSpeaking p = true -> visemeData p = Some v ->
  exists st',
    apply_viseme p st = Some st' /\
    (forall key,
       In key (JsObject.keys (lipSyncMorphTargets st'))
       <-> In key (JsObject.keys (lipSyncMorphTargets st))
           \/ In key (JsObject.keys (weightsFor (phoneme v)))) /\
    (forall key,
       In key (JsObject.keys (lipSyncMorphTargets st')) ->
       JsObject.get key (lipSyncMorphTargets st')
       = Some (weight_of key (lipSyncMorphTargets st)
               + (target_weight p v key - weight_of key (lipSyncMorphTargets st))
                 * (1 - smoothing p))) /\
    (phoneme v = "aa" -> intensity v = 1.0 -> smoothing p = 0.3 ->
     intensityGain p = 1.0 -> weight_of "jawOpen" (lipSyncMorphTargets st) = 0 ->
     JsObject.get "jawOpen" (lipSyncMorphTargets st') = Some 0.49).
Proof.
  intros Hs Hv. eexists. split; [apply (apply_viseme_speaking p v st Hs Hv)|].
  cbn [lipSyncMorphTargets].
  assert (forall key,
            In key (JsObject.keys (lipSyncMorphTargets st))
            \/ In key (JsObject.keys (weightsFor (phoneme v))) ->
            JsObject.get key
              (smooth_towards (1 - smoothing p)
                 (scale_entries (intensityGain p) v (weightsFor (phoneme v)))
                 (lipSyncMorphTargets st))
            = Some (weight_of key (lipSyncMorphTargets st)
                    + (target_weight p v key - weight_of key (lipSyncMorphTargets st))
                      * (1 - smoothing p))) as Hget.
  { intros key Hin. rewrite get_smooth_towards by (rewrite keys_scaled; exact Hin).
    rewrite weight_of_scaled. reflexivity. }
  split; [|split].
  - intros key. rewrite keys_smooth_towards, keys_scaled. tauto.
  - intros key Hin. apply Hget.
    rewrite keys_smooth_towards, keys_scaled in Hin. exact Hin.
  - intros Hcode Hint Hsm Hgain Hold. rewrite Hget.
    + unfold target_weight. rewrite Hcode, Hint, Hsm, Hgain, Hold.
      change (JsObject.get "jawOpen" (weightsFor "aa")) with (Some 0.7).
      f_equal. lra.
    + right. rewrite Hcode. simpl. now left.
Qed.

Lemma speaking_update_witness :
  exists st',
    apply_viseme
      {| visemeData := Some {| phoneme := "aa"; timestamp := 0;
                               duration := 0.1; intensity := 1.0 |};
         isSpeaking := true; smoothing_prop := None; intensity_prop := None |}
      initial = Some st' /\
    JsObject.get "jawOpen" (lipSyncMorphTargets st') = Some 0.49.
Proof.
  destruct (speaking_update_smooths_each_channel
              {| visemeData := Some {| phoneme := "aa"; timestamp := 0;
                                       duration := 0.1; intensity := 1.0 |};
                 isSpeaking := true; smoothing_prop := None; intensity_prop := None |}
              {| phoneme := "aa"; timestamp := 0; duration := 0.1; intensity := 1.0 |}
              initial eq_refl eq_refl)
    as (st' & Hrun & _ & _ & Haa).
  exists st'. split; [exact Hrun|].
  apply Haa; reflexivity.
Defined.

(** One run of the effect never throws and keeps every channel name. *)
Lemma apply_viseme_keeps_keys p st :
  exists st',
    apply_viseme p st = Some st' /\
    forall key,
      In key (JsObject.keys (lipSyncMorphTargets st)) ->
      In key (JsObject.keys (lipSyncMorphTargets st')).
Proof.
  destruct (isSpeaking p) eqn:Hs; [destruct (visemeData p) as [v|] eqn:Hv|].
  - eexists. split; [apply (apply_viseme_speaking p v st Hs Hv)|].
    intros key Hin. cbn [lipSyncMorphTargets]. rewrite keys_smooth_towards. now left.
  - eexists. split; [apply apply_viseme_silent; now right|].
    intros key Hin. cbn [lipSyncMorphTargets]. now rewrite keys_smooth_to_neutral.
  - eexists. split; [apply apply_viseme_silent; now left|].
    intros key Hin. cbn [lipSyncMorphTargets]. now rewrite keys_smooth_to_neutral.
Qed.

(** C10. Across successive runs of the smoothing effect while the hook is
    mounted, whatever the inputs of each run, no run throws and every channel
    name of the map stays in the map: the speaking branch carries the union
    of the previous and the target names, the other branch every previous
    name. *)
Theorem channel_names_never_shrink ps : forall st,
  exists st',
    run ps st = Some st' /\
    forall key,
      In key (JsObject.keys (lipSyncMorphTargets st)) ->
      In key (JsObject.keys (lipSyncMorphTargets st')).
Proof.
  induction ps as [|p ps IH]; intros st; simpl.
  - exists st. auto.
  - destruct (apply_viseme_keeps_keys p st) as (st1 & -> & H1).
    destruct (IH st1) as (st' & Hrun & H2).
    exists st'. auto.
Qed.





(** Renders that each change a dependency are runs of the effect on their
    props. *)
Lemma changed_renders_are_runs rs : forall prev st,
  each_changes prev rs = true ->
  hook_renders prev rs st = run (map render_props rs) st.
Proof.
  induction rs as [|r rs IH]; intros prev st Hall; [reflexivity|].
  cbn [each_changes] in Hall. apply andb_true_iff in Hall as [Hr Hrest].
  cbn [hook_renders map run].
  assert (hook_render prev r st = apply_viseme (render_props r) st) as ->.
  { destruct prev as [q|]; [|reflexivity]. cbn [hook_render].
    apply negb_true_iff in Hr. now rewrite Hr. }
  destruct (apply_viseme (render_props r) st) as [st'|]; [|reflexivity].
  apply IH, Hrest.
Qed.







(** Repeated runs with one event held: the distance of every channel from its
    target is scaled by [smoothing ^ n]. *)
Lemma speaking_runs p v n : forall st,
  isSpeaking p = true -> visemeData p = Some v ->
  exists stn,
    repeat_run n p st = Some stn /\
    forall key,
      weight_of key (lipSyncMorphTargets stn) - target_weight p v key
      = smoothing p ^ n * (weight_of key (lipSyncMorphTargets st) - target_weight p v key).
Proof.
  induction n as [|n IH]; intros st Hs Hv; simpl.
  - exists st. split; [reflexivity|]. intros key. ring.
  - rewrite (apply_viseme_speaking p v st Hs Hv).
    destruct (IH {| lipSyncMorphTargets :=
                      smooth_towards (1 - smoothing p)
                        (scale_entries (intensityGain p) v (weightsFor (phoneme v)))
                        (lipSyncMorphTargets st);
                    currentViseme := phoneme v; isActive := true |} Hs Hv)
      as (stn & Hrun & Hdist).
    exists stn. split; [exact Hrun|]. intros key. rewrite Hdist.
    cbn [lipSyncMorphTargets]. rewrite weight_smooth_towards, weight_of_scaled.
    unfold interpolateValue. ring.
Qed.

Lemma weight_after_speaking p v n st key :
  isSpeaking p = true -> visemeData p = Some v ->
  weight_of key (weights_after n p st) - target_weight p v key
  = smoothing p ^ n * (weight_of key (lipSyncMorphTargets st) - target_weight p v key).
Proof.
  intros Hs Hv. unfold weights_after.
  destruct (speaking_runs p v n st Hs Hv) as (stn & -> & Hdist). apply Hdist.
Qed.

(** C8, as the code has it. With one event held across [n] runs of the
    update and a smoothing factor in [0,1), no run throws, the weight of
    every channel moves toward its target without passing it, and its
    distance from the target after [n] runs is [smoothing ^ n] times the
    initial distance; it is within [smoothing ^ n] of the target when the
    initial distance is at most 1. *)
Theorem constant_target_is_approached_geometrically p v st n key :
  isSpeaking p = true -> visemeData p = Some v ->
  0 <= smoothing p < 1 ->
  repeat_run n p st <> None /\
  Rabs (weight_of key (weights_after n p st) - target_weight p v key)
  = smoothing p ^ n
    * Rabs (weight_of key (lipSyncMorphTargets st) - target_weight p v key) /\
  (weight_of key (lipSyncMorphTargets st) <= target_weight p v key ->
   weight_of key (weights_after n p st) <= weight_of key (weights_after (S n) p st)
   /\ weight_of key (weights_after (S n) p st) <= target_weight p v key) /\
  (target_weight p v key <= weight_of key (lipSyncMorphTargets st) ->
   target_weight p v key <= weight_of key (weights_after (S n) p st)
   /\ weight_of key (weights_after (S n) p st) <= weight_of key (weights_after n p st)) /\
  (Rabs (weight_of key (lipSyncMorphTargets st) - target_weight p v key) <= 1 ->
   Rabs (weight_of key (weights_after n p st) - target_weight p v key)
   <= smoothing p ^ n).
Proof.
  intros Hs Hv Hsm.
  pose proof (weight_after_speaking p v n st key Hs Hv) as Hn.
  pose proof (weight_after_speaking p v (S n) st key Hs Hv) as HSn.
  simpl pow in HSn.
  assert (0 <= smoothing p ^ n) as Hpow by (apply pow_le; lra).
  set (T := target_weight p v key) in *.
  set (w0 := weight_of key (lipSyncMorphTargets st)) in *.
  set (wn := weight_of key (weights_after n p st)) in *.
  set (wSn := weight_of key (weights_after (S n) p st)) in *.
  set (q := smoothing p ^ n) in *.
  assert (Rabs (wn - T) = q * Rabs (w0 - T)) as Habs.
  { rewrite Hn, Rabs_mult, (Rabs_pos_eq q) by exact Hpow. reflexivity. }
  split; [|split; [exact Habs | split; [|split]]].
  - destruct (speaking_runs p v n st Hs Hv) as (stn & Hrun & _).
    rewrite Hrun. discriminate.
  - intros Hle.
    assert (wSn - T = smoothing p * (wn - T)) as Hstep by (rewrite HSn, Hn; ring).
    assert (wn - T <= 0) by nra.
    split; nra.
  - intros Hle.
    assert (wSn - T = smoothing p * (wn - T)) as Hstep by (rewrite HSn, Hn; ring).
    assert (0 <= wn - T) by nra.
    split; nra.
  - intros Hd. rewrite Habs. pose proof (Rabs_pos (w0 - T)). nra.
Qed.

Lemma constant_target_witness :
  Rabs (weight_of "jawOpen"
          (weights_after 2
             {| visemeData := Some {| phoneme := "aa"; timestamp := 0;
                                      duration := 0.1; intensity := 1.0 |};
                isSpeaking := true; smoothing_prop := None; intensity_prop := None |}
             initial)
        - target_weight
            {| visemeData := Some {| phoneme := "aa"; timestamp := 0;
                                     duration := 0.1; intensity := 1.0 |};
               isSpeaking := true; smoothing_prop := None; intensity_prop := None |}
            {| phoneme := "aa"; timestamp := 0; duration := 0.1; intensity := 1.0 |}
            "jawOpen")
  <= 0.3 ^ 2.
Proof.
  assert (0 <= 0.3 < 1) as Hsm by lra.
  destruct (constant_target_is_approached_geometrically
              {| visemeData := Some {| phoneme := "aa"; timestamp := 0;
                                       duration := 0.1; intensity := 1.0 |};
                 isSpeaking := true; smoothing_prop := None; intensity_prop := None |}
              {| phoneme := "aa"; timestamp := 0; duration := 0.1; intensity := 1.0 |}
              initial 2 "jawOpen" eq_refl eq_refl Hsm)
    as (_ & _ & _ & _ & Hwithin).
  apply Hwithin.
  change (Rabs (0 - 0.7 * (1.0 * 1.0)) <= 1).
  rewrite Rabs_left1; lra.
Defined.

(** C8, counterexample to the bound [smoothing ^ N] without a bound on the
    initial distance. For "uw" at event intensity 1, gain 2 and smoothing 0.5
    the target of the funnel channel is 2; from the initial state one update
    gives the weight 1, at distance 1 from the target, which exceeds
    [0.5 ^ 1]. *)
Lemma constant_target_bound_fails :
  let uw := {| phoneme := "uw"; timestamp := 0; duration := 0.1; intensity := 1 |} in
  let p := {| visemeData := Some uw; isSpeaking := true;
              smoothing_prop := Some 0.5; intensity_prop := Some 2 |} in
  0 <= smoothing p < 1 /\
  target_weight p uw "mouthFunnel" = 2 /\
  weight_of "mouthFunnel" (weights_after 1 p initial) = 1 /\
  ~ (Rabs (weight_of "mouthFunnel" (weights_after 1 p initial)
           - target_weight p uw "mouthFunnel") <= smoothing p ^ 1).
Proof.
  intros uw p.
  assert (target_weight p uw "mouthFunnel" = 2) as HT.
  { change (1.0 * (2 * 1) = 2). lra. }
  assert (weight_of "mouthFunnel" (weights_after 1 p initial) = 1) as Hw.
  { pose proof (weight_after_speaking p uw 1 initial "mouthFunnel" eq_refl eq_refl) as H.
    rewrite HT in H. change (smoothing p) with 0.5 in H.
    change (weight_of "mouthFunnel" (lipSyncMorphTargets initial)) with 0 in H.
    simpl pow in H. lra. }
  change (smoothing p) with 0.5.
  split; [lra | split; [exact HT | split; [exact Hw|]]].
  rewrite Hw, HT. rewrite Rabs_left1 by lra. simpl pow. lra.
Qed.


(** ** Further properties of the lip-sync hook *)

Lemma table_values_in_unit_interval :
  Forall (fun e => Forall (fun kv => 0 <= snd kv <= 1) (snd e)) VISEME_TO_MORPH_TARGET.
Proof.
  unfold VISEME_TO_MORPH_TARGET.
  repeat first [apply Forall_nil | apply Forall_cons]; cbn [snd]; lra.
Qed.

Lemma weightsFor_in_unit_interval code key w :
  JsObject.get key (weightsFor code) = Some w -> 0 <= w <= 1.
Proof.
  unfold weightsFor.
  destruct (JsObject.get code VISEME_TO_MORPH_TARGET) as [o|] eqn:E; [|discriminate].
  intros Hget. apply get_In in E. apply get_In in Hget.
  pose proof table_values_in_unit_interval as H.
  rewrite Forall_forall in H. specialize (H _ E). simpl in H.
  rewrite Forall_forall in H. exact (H _ Hget).
Qed.

Lemma target_weight_in_unit_interval p v key :
  0 <= intensityGain p * intensity v <= 1 -> 0 <= target_weight p v key <= 1.
Proof.
  intros Hg. unfold target_weight.
  destruct (JsObject.get key (weightsFor (phoneme v))) as [w|] eqn:E; [|lra].
  pose proof (weightsFor_in_unit_interval _ _ _ E). nra.
Qed.

Lemma weight_smooth_to_neutral factor prev key :
  weight_of key (smooth_to_neutral factor prev)
  = interpolateValue (weight_of key prev) 0 factor.
Proof.
  unfold weight_of. rewrite get_smooth_to_neutral.
  destruct (JsObject.get key prev); simpl; [reflexivity|].
  unfold interpolateValue. ring.
Qed.

(** The weight of every channel after one run, in both branches. *)
Lemma weight_after_apply_viseme p st :
  exists st',
    apply_viseme p st = Some st' /\
    forall key,
      weight_of key (lipSyncMorphTargets st')
      = interpolateValue (weight_of key (lipSyncMorphTargets st))
          (match isSpeaking p, visemeData p with
           | true, Some v => target_weight p v key
           | _, _ => 0
           end)
          (1 - smoothing p).
Proof.
  destruct (isSpeaking p) eqn:Hs; [destruct (visemeData p) as [v|] eqn:Hv|].
  - eexists. split; [apply (apply_viseme_speaking p v st Hs Hv)|].
    intros key. cbn [lipSyncMorphTargets].
    now rewrite weight_smooth_towards, weight_of_scaled.
  - eexists. split; [apply apply_viseme_silent; now right|].
    intros key. cbn [lipSyncMorphTargets]. apply weight_smooth_to_neutral.
  - eexists. split; [apply apply_viseme_silent; now left|].
    intros key. cbn [lipSyncMorphTargets]. apply weight_smooth_to_neutral.
Qed.

Lemma apply_viseme_unit_weights p st st' :
  in_range p ->
  unit_weights (lipSyncMorphTargets st) ->
  apply_viseme p st = Some st' ->
  unit_weights (lipSyncMorphTargets st').
Proof.
  intros [Hs Hg] Hunit Hrun key.
  destruct (weight_after_apply_viseme p st) as (st1 & Hrun1 & Hw).
  rewrite Hrun in Hrun1. injection Hrun1 as <-. rewrite Hw.
  specialize (Hunit key). unfold interpolateValue.
  set (w := weight_of key (lipSyncMorphTargets st)) in *.
  destruct (isSpeaking p); [destruct (visemeData p) as [v|]|]; try nra.
  pose proof (target_weight_in_unit_interval p v key (Hg v eq_refl)). nra.
Qed.

(** X1. With every smoothing factor in [0,1] and every product of gain and
    event intensity in [0,1], the weights stay in [0,1] across any sequence
    of runs that starts from weights in [0,1], although nothing clamps
    them. *)
Theorem weights_stay_in_unit_interval ps : forall st,
  Forall in_range ps ->
  unit_weights (lipSyncMorphTargets st) ->
  exists st',
    run ps st = Some st' /\ unit_weights (lipSyncMorphTargets st').
Proof.
  induction ps as [|p ps IH]; intros st Hps Hunit; simpl.
  - exists st. auto.
  - inversion Hps as [|? ? Hp Hps']; subst.
    destruct (weight_after_apply_viseme p st) as (st1 & Hrun1 & _).
    rewrite Hrun1. apply IH; [exact Hps'|].
    exact (apply_viseme_unit_weights p st st1 Hp Hunit Hrun1).
Qed.

Lemma weights_stay_in_unit_interval_witness :
  exists st',
    run [ {| visemeData := Some {| phoneme := "aa"; timestamp := 0;
                                  duration := 0.1; intensity := 0.9 |};
             isSpeaking := true; smoothing_prop := None; intensity_prop := None |} ]
      initial = Some st' /\
    unit_weights (lipSyncMorphTargets st').
Proof.
  apply weights_stay_in_unit_interval.
  - constructor; [|constructor]. split.
    + change (0 <= 0.3 <= 1). lra.
    + intros v [= <-]. change (0 <= 1.0 * 0.9 <= 1). lra.
  - intros key. change (0 <= 0 <= 1). lra.
Defined.


Lemma weightsFor_channels code key :
  In key (JsObject.keys (weightsFor code)) -> is_table_channel key = true.
Proof.
  unfold weightsFor, is_table_channel.
  destruct (JsObject.get code VISEME_TO_MORPH_TARGET) as [o|] eqn:E; [|contradiction].
  intros Hin. apply get_In in E. apply existsb_exists.
  exists (code, o). split; [exact E|]. apply existsb_exists.
  exists key. split; [exact Hin | apply String.eqb_refl].
Qed.

Lemma apply_viseme_table_channels p st :
  (forall key, In key (JsObject.keys (lipSyncMorphTargets st)) ->
               is_table_channel key = true) ->
  exists st',
    apply_viseme p st = Some st' /\
    forall key, In key (JsObject.keys (lipSyncMorphTargets st')) ->
                is_table_channel key = true.
Proof.
  intros Hprev.
  destruct (isSpeaking p) eqn:Hs; [destruct (visemeData p) as [v|] eqn:Hv|].
  - eexists. split; [apply (apply_viseme_speaking p v st Hs Hv)|].
    intros key. cbn [lipSyncMorphTargets]. rewrite keys_smooth_towards, keys_scaled.
    intros [H|H]; [auto | exact (weightsFor_channels _ _ H)].
  - eexists. split; [apply apply_viseme_silent; now right|].
    intros key. cbn [lipSyncMorphTargets]. rewrite keys_smooth_to_neutral. auto.
  - eexists. split; [apply apply_viseme_silent; now left|].
    intros key. cbn [lipSyncMorphTargets]. rewrite keys_smooth_to_neutral. auto.
Qed.

Lemma run_table_channels ps : forall st,
  (forall key, In key (JsObject.keys (lipSyncMorphTargets st)) ->
               is_table_channel key = true) ->
  exists st',
    run ps st = Some st' /\
    forall key, In key (JsObject.keys (lipSyncMorphTargets st')) ->
                is_table_channel key = true.
Proof.
  induction ps as [|p ps IH]; intros st Hprev; simpl.
  - exists st. auto.
  - destruct (apply_viseme_table_channels p st Hprev) as (st1 & -> & H1).
    exact (IH st1 H1).
Qed.

(** X2. Whatever the sequence of inputs since mount, every channel name the
    hook returns is a channel of some entry of the phoneme table; so the
    lip-sync map never carries the eye-closure channels of the blink, nor
    the eye-wide and frown channels of the expressions. *)
Theorem lip_sync_channels_come_from_the_table ps :
  exists st',
    run ps initial = Some st' /\
    (forall key, In key (JsObject.keys (lipSyncMorphTargets st')) ->
                 is_table_channel key = true) /\
    (forall key,
       In key ["eyeBlinkLeft"; "eyeBlinkRight"; "eyeWideLeft"; "eyeWideRight";
               "mouthFrownLeft"; "mouthFrownRight"] ->
       ~ In key (JsObject.keys (lipSyncMorphTargets st'))).
Proof.
  destruct (run_table_channels ps initial) as (st' & Hrun & Hkeys).
  { intros key []. }
  exists st'. split; [exact Hrun | split; [exact Hkeys|]].
  intros key Hkey Hin. specialize (Hkeys key Hin).
  simpl in Hkey.
  repeat (destruct Hkey as [<-|Hkey]; [discriminate Hkeys|]).
  contradiction.
Qed.

(** X3. With smoothing 1 the update moves nothing. One run, in either
    branch, keeps the weight of every channel the map had; the map carries
    the channels it had and, while speaking, those of the event's table
    entry, and a channel the run adds enters with weight 0. *)
Theorem smoothing_one_freezes_the_weights p st :
  smoothing p = 1 ->
  exists st',
    apply_viseme p st = Some st' /\
    (forall key w,
       JsObject.get key (lipSyncMorphTargets st) = Some w ->
       JsObject.get key (lipSyncMorphTargets st') = Some w) /\
    (forall key,
       In key (JsObject.keys (lipSyncMorphTargets st'))
       <-> In key (JsObject.keys (lipSyncMorphTargets st))
           \/ match isSpeaking p, visemeData p with
              | true, Some v => In key (JsObject.keys (weightsFor (phoneme v)))
              | _, _ => False
              end) /\
    (forall key,
       In key (JsObject.keys (lipSyncMorphTargets st')) ->
       ~ In key (JsObject.keys (lipSyncMorphTargets st)) ->
       JsObject.get key (lipSyncMorphTargets st') = Some 0).
Proof.
  intros H1.
  assert (forall w T, interpolateValue w T (1 - smoothing p) = w) as Hfreeze.
  { intros w T. rewrite H1. unfold interpolateValue. ring. }
  destruct (isSpeaking p) eqn:Hs; [destruct (visemeData p) as [v|] eqn:Hv|].
  - eexists. split; [apply (apply_viseme_speaking p v st Hs Hv)|].
    cbn [lipSyncMorphTargets]. split; [|split].
    + intros key w Hget.
      rewrite get_smooth_towards by (left; apply get_keys; eauto).
      rewrite Hfreeze. unfold weight_of. now rewrite Hget.
    + intros key. rewrite keys_smooth_towards, keys_scaled. reflexivity.
    + intros key Hin Hout.
      rewrite get_smooth_towards by (apply keys_smooth_towards in Hin; exact Hin).
      rewrite Hfreeze. unfold weight_of.
      apply get_None_keys in Hout. now rewrite Hout.
  - eexists. split; [apply apply_viseme_silent; now right|].
    cbn [lipSyncMorphTargets]. split; [|split].
    + intros key w Hget. rewrite get_smooth_to_neutral, Hget. simpl.
      now rewrite Hfreeze.
    + intros key. rewrite keys_smooth_to_neutral. tauto.
    + intros key Hin Hout. apply keys_smooth_to_neutral in Hin. contradiction.
  - eexists. split; [apply apply_viseme_silent; now left|].
    cbn [lipSyncMorphTargets]. split; [|split].
    + intros key w Hget. rewrite get_smooth_to_neutral, Hget. simpl.
      now rewrite Hfreeze.
    + intros key. rewrite keys_smooth_to_neutral.
      destruct (visemeData p); tauto.
    + intros key Hin Hout. apply keys_smooth_to_neutral in Hin. contradiction.
Qed.

Lemma smoothing_one_witness :
  exists st',
    apply_viseme
      {| visemeData := Some {| phoneme := "aa"; timestamp := 0;
                               duration := 0.1; intensity := 1.0 |};
         isSpeaking := true; smoothing_prop := Some 1; intensity_prop := None |}
      {| lipSyncMorphTargets := [("mouthClose", 0.5)];
         currentViseme := "b"; isActive := true |} = Some st' /\
    JsObject.get "mouthClose" (lipSyncMorphTargets st') = Some 0.5 /\
    JsObject.get "jawOpen" (lipSyncMorphTargets st') = Some 0.
Proof.
  destruct (smoothing_one_freezes_the_weights
              {| visemeData := Some {| phoneme := "aa"; timestamp := 0;
                                       duration := 0.1; intensity := 1.0 |};
                 isSpeaking := true; smoothing_prop := Some 1; intensity_prop := None |}
              {| lipSyncMorphTargets := [("mouthClose", 0.5)];
                 currentViseme := "b"; isActive := true |}
              eq_refl) as (st' & Hrun & Hkeep & Hkeys & Hnew).
  exists st'. split; [exact Hrun|]. split.
  - apply Hkeep. reflexivity.
  - apply Hnew.
    + apply Hkeys. right. simpl. now left.
    + simpl. intros [H|[]]. discriminate H.
Defined.

(** X4. An event that asks for no shape decays the mouth exactly like
    silence: while speaking, an event whose code is "sil" or is not in the
    table, or whose intensity or gain is 0, gives every channel the weight
    the not-speaking run gives it. *)
Theorem empty_event_decays_like_silence p v st :
  isSpeaking p = true -> visemeData p = Some v ->
  phoneme v = "sil" \/ JsObject.get (phoneme v) VISEME_TO_MORPH_TARGET = None
  \/ intensity v = 0 \/ intensityGain p = 0 ->
  exists st1 st2,
    apply_viseme p st = Some st1 /\
    apply_viseme (silenced p) st = Some st2 /\
    forall key,
      weight_of key (lipSyncMorphTargets st1) = weight_of key (lipSyncMorphTargets st2).
Proof.
  intros Hs Hv Hempty.
  assert (forall key, target_weight p v key = 0) as HT.
  { intros key. unfold target_weight.
    destruct Hempty as [H|[H|[H|H]]].
    - rewrite H. reflexivity.
    - unfold weightsFor. rewrite H. reflexivity.
    - rewrite H. destruct (JsObject.get key _); ring.
    - rewrite H. destruct (JsObject.get key _); ring. }
  destruct (weight_after_apply_viseme p st) as (st1 & Hrun1 & Hw1).
  destruct (weight_after_apply_viseme (silenced p) st) as (st2 & Hrun2 & Hw2).
  exists st1, st2. split; [exact Hrun1 | split; [exact Hrun2|]].
  intros key. rewrite Hw1, Hw2, Hs, Hv, HT. reflexivity.
Qed.

Lemma empty_event_witness :
  exists st1 st2,
    apply_viseme
      {| visemeData := Some {| phoneme := "oh"; timestamp := 0;
                               duration := 200; intensity := 0.9 |};
         isSpeaking := true; smoothing_prop := None; intensity_prop := None |}
      {| lipSyncMorphTargets := [("jawOpen", 0.49)];
         currentViseme := "aa"; isActive := true |} = Some st1 /\
    apply_viseme
      (silenced
         {| visemeData := Some {| phoneme := "oh"; timestamp := 0;
                                  duration := 200; intensity := 0.9 |};
            isSpeaking := true; smoothing_prop := None; intensity_prop := None |})
      {| lipSyncMorphTargets := [("jawOpen", 0.49)];
         currentViseme := "aa"; isActive := true |} = Some st2 /\
    forall key,
      weight_of key (lipSyncMorphTargets st1) = weight_of key (lipSyncMorphTargets st2).
Proof.
  apply (empty_event_decays_like_silence _
           {| phoneme := "oh"; timestamp := 0; duration := 200; intensity := 0.9 |});
    [reflexivity | reflexivity | right; left; reflexivity].
Defined.

(** X5. A channel that is on its target stays on it. With one event held, a
    channel whose weight equals its target (the table value scaled by gain
    and event intensity, 0 for a channel absent from the entry) has that
    weight after any number of runs of the update, whatever the smoothing
    factor. *)
Theorem target_is_a_fixed_point p v st key n :
  isSpeaking p = true -> visemeData p = Some v ->
  weight_of key (lipSyncMorphTargets st) = target_weight p v key ->
  repeat_run n p st <> None /\
  weight_of key (weights_after n p st) = target_weight p v key.
Proof.
  intros Hs Hv Hon. unfold weights_after.
  destruct (speaking_runs p v n st Hs Hv) as (stn & -> & Hdist).
  split; [discriminate|].
  specialize (Hdist key). rewrite Hon in Hdist. lra.
Qed.

Lemma target_fixed_point_witness :
  weight_of "jawOpen"
    (weights_after 5
       {| visemeData := Some {| phoneme := "aa"; timestamp := 0;
                                duration := 0.1; intensity := 1.0 |};
          isSpeaking := true; smoothing_prop := None; intensity_prop := None |}
       {| lipSyncMorphTargets := [("jawOpen", 0.7); ("mouthFunnel", 0.2)];
          currentViseme := "aa"; isActive := true |}) = 0.7.
Proof.
  destruct (target_is_a_fixed_point
              {| visemeData := Some {| phoneme := "aa"; timestamp := 0;
                                       duration := 0.1; intensity := 1.0 |};
                 isSpeaking := true; smoothing_prop := None; intensity_prop := None |}
              {| phoneme := "aa"; timestamp := 0; duration := 0.1; intensity := 1.0 |}
              {| lipSyncMorphTargets := [("jawOpen", 0.7); ("mouthFunnel", 0.2)];
                 currentViseme := "aa"; isActive := true |}
              "jawOpen" 5%nat eq_refl eq_refl) as (_ & Hfix).
  - change (0.7 = 0.7 * (1.0 * 1.0)). lra.
  - rewrite Hfix. change (0.7 * (1.0 * 1.0) = 0.7). lra.
Defined.


(** X6. The enumeration order of the channels is stable. On a map without
    repeated names, a run keeps every previous channel at its place; the
    not-speaking run adds nothing, and the speaking run appends the names of
    the table entry that the map did not have, in the order of the entry.
    The new map again has no repeated name. *)
Theorem channel_order_is_stable p st :
  NoDup (JsObject.keys (lipSyncMorphTargets st)) ->
  exists st',
    apply_viseme p st = Some st' /\
    NoDup (JsObject.keys (lipSyncMorphTargets st')) /\
    JsObject.keys (lipSyncMorphTargets st')
    = JsObject.keys (lipSyncMorphTargets st)
      ++ match isSpeaking p, visemeData p with
         | true, Some v =>
             filter (fun k => negb (existsb (String.eqb k)
                                      (JsObject.keys (lipSyncMorphTargets st))))
               (JsObject.keys (weightsFor (phoneme v)))
         | _, _ => []
         end.
Proof.
  intros Hnd.
  assert (forall (f : string -> R),
            JsObject.keys
              (fold_left (fun acc key => JsObject.set key (f key) acc)
                 (JsObject.keys (lipSyncMorphTargets st)) [])
            = JsObject.keys (lipSyncMorphTargets st)) as Hsilent.
  { intros f. rewrite keys_assign_each_in_order. simpl.
    rewrite (Set_add_new_names _ [] Hnd). simpl.
    clear. induction (JsObject.keys (lipSyncMorphTargets st)); simpl; congruence. }
  destruct (apply_viseme_keeps_keys p st) as (st' & Hrun & _).
  exists st'. split; [exact Hrun|].
  split; [exact (apply_viseme_keys_distinct p st st' Hnd Hrun)|].
  destruct (isSpeaking p) eqn:Hs; [destruct (visemeData p) as [v|] eqn:Hv|].
  - rewrite (apply_viseme_speaking p v st Hs Hv) in Hrun. injection Hrun as <-.
    cbn [lipSyncMorphTargets]. unfold smooth_towards.
    rewrite keys_assign_each_in_order, keys_scaled.
    unfold JsObject.Set_of. rewrite fold_left_app.
    rewrite (Set_add_new_names _ [] Hnd). simpl.
    replace (filter (fun _ : string => true) (JsObject.keys (lipSyncMorphTargets st)))
      with (JsObject.keys (lipSyncMorphTargets st))
      by (clear; induction (JsObject.keys (lipSyncMorphTargets st)); simpl; congruence).
    rewrite (Set_add_new_names _ _ (weightsFor_NoDup (phoneme v))).
    set (kp := JsObject.keys (lipSyncMorphTargets st)).
    set (fresh := fun k => negb (existsb (String.eqb k) kp)).
    rewrite fold_left_app, (Set_add_present kp kp) by auto.
    rewrite (Set_add_new_names _ kp)
      by (apply NoDup_filter, weightsFor_NoDup).
    f_equal. fold fresh.
    induction (JsObject.keys (weightsFor (phoneme v))) as [|a l IHl]; simpl;
      [reflexivity|].
    destruct (fresh a) eqn:E; simpl; rewrite ?E; congruence.
  - rewrite apply_viseme_silent in Hrun by (now right). injection Hrun as <-.
    cbn [lipSyncMorphTargets]. unfold smooth_to_neutral.
    rewrite app_nil_r. apply Hsilent.
  - rewrite apply_viseme_silent in Hrun by (now left). injection Hrun as <-.
    cbn [lipSyncMorphTargets]. unfold smooth_to_neutral.
    rewrite app_nil_r. apply Hsilent.
Qed.

Lemma channel_order_witness :
  exists st',
    apply_viseme
      {| visemeData := Some {| phoneme := "d"; timestamp := 0;
                               duration := 0.1; intensity := 1.0 |};
         isSpeaking := true; smoothing_prop := None; intensity_prop := None |}
      {| lipSyncMorphTargets := [("jawOpen", 0.49); ("mouthFunnel", 0.14)];
         currentViseme := "aa"; isActive := true |} = Some st' /\
    JsObject.keys (lipSyncMorphTargets st') = ["jawOpen"; "mouthFunnel"; "tongueOut"].
Proof.
  assert (NoDup ["jawOpen"; "mouthFunnel"]) as Hnd
    by (apply distinct_NoDup; reflexivity).
  destruct (channel_order_is_stable
              {| visemeData := Some {| phoneme := "d"; timestamp := 0;
                                       duration := 0.1; intensity := 1.0 |};
                 isSpeaking := true; smoothing_prop := None; intensity_prop := None |}
              {| lipSyncMorphTargets := [("jawOpen", 0.49); ("mouthFunnel", 0.14)];
                 currentViseme := "aa"; isActive := true |} Hnd)
    as (st' & Hrun & _ & Hkeys).
  exists st'. split; [exact Hrun | exact Hkeys].
Defined.


End LipSyncFacts.

(** ** The animation-state hook *)

Module CharacterAnimationFacts.
Import CharacterAnimation.

Lemma emotion_effect_keeps_clip p st :
  currentAnimation (emotion_effect p st) = currentAnimation st.
Proof.
  unfold emotion_effect.
  repeat match goal with |- context [String.eqb ?a ?b] => destruct (String.eqb a b) end;
    reflexivity.
Qed.

Lemma activity_effect_clip p st : currentAnimation (activity_effect p st) = clip_for p.
Proof. unfold activity_effect, clip_for. now destruct (isSpeaking p), (isListening p). Qed.

Lemma commit_keeps_clip_of_activity prev p st :
  currentAnimation (commit prev p st) = currentAnimation (after_activity prev p st).
Proof.
  unfold commit. destruct (emotion_deps_changed prev p); [|reflexivity].
  apply emotion_effect_keeps_clip.
Qed.

Lemma commit_clip_follows prev p st :
  clip_follows prev st -> clip_follows (Some p) (commit prev p st).
Proof.
  intros Hinv. simpl. rewrite commit_keeps_clip_of_activity.
  unfold after_activity, activity_deps_changed.
  destruct prev as [q|]; [|apply activity_effect_clip].
  destruct (Bool.eqb (isListening q) (isListening p)) eqn:El;
    destruct (Bool.eqb (isSpeaking q) (isSpeaking p)) eqn:Es; simpl;
    try apply activity_effect_clip.
  apply eqb_prop in El. apply eqb_prop in Es.
  simpl in Hinv. rewrite Hinv. unfold clip_for. now rewrite El, Es.
Qed.

Lemma last_nonempty_default {A : Type} (l : list A) : forall x d d',
  last (x :: l) d = last (x :: l) d'.
Proof.
  induction l as [|y l IH]; intros x d d'; [reflexivity|].
  change (last (y :: l) d = last (y :: l) d'). apply IH.
Qed.

Lemma last_after_cons {A : Type} (l : list A) (x d : A) :
  last (x :: l) d = last l x.
Proof.
  destruct l as [|y l]; [reflexivity|].
  change (last (y :: l) d = last (y :: l) x). apply last_nonempty_default.
Qed.

Lemma renders_snoc ps : forall prev p st,
  renders prev (ps ++ [p]) st
  = commit (last (map Some ps) prev) p (renders prev ps st).
Proof.
  induction ps as [|a ps IH]; intros prev p st.
  - reflexivity.
  - cbn [app renders map]. rewrite IH, last_after_cons. reflexivity.
Qed.

Lemma renders_clip_follows ps : forall prev st,
  clip_follows prev st -> clip_follows (last (map Some ps) prev) (renders prev ps st).
Proof.
  induction ps as [|a ps IH]; intros prev st Hinv; cbn [renders].
  - exact Hinv.
  - specialize (IH (Some a) (commit prev a st) (commit_clip_follows prev a st Hinv)).
    cbn [map]. rewrite last_after_cons. exact IH.
Qed.

(** C4, as the code has it. After any history of renders since mount, in
    the render with props [p], for every combination of isListening and
    isSpeaking: the clip name is the one listening/speaking ask for and the
    emotion effect does not change it; if the emotion effect runs in this
    render (on mount, or when the emotion differs from the previous render)
    then happy, sad, excited and calm yield (1.3, cheerful), (0.7, dejected),
    (1.5, energetic) and (0.9, relaxed), and any other tag leaves the speed
    and pose as they are after the listening/speaking effect of this render;
    if the emotion effect does not run, speed and pose are likewise those
    left by the listening/speaking effect. *)
Theorem emotion_overrides_when_its_effect_runs history p :
  let prev := previous_props history in
  let st := renders None history initial in
  let st' := renders None (history ++ [p]) initial in
  currentAnimation st' = clip_for p /\
  currentAnimation st' = currentAnimation (after_activity prev p st) /\
  (emotion_deps_changed prev p = true ->
   (emotion p = "happy" -> animationSpeed st' = 1.3 /\ bodyPose st' = "cheerful") /\
   (emotion p = "sad" -> animationSpeed st' = 0.7 /\ bodyPose st' = "dejected") /\
   (emotion p = "excited" -> animationSpeed st' = 1.5 /\ bodyPose st' = "energetic") /\
   (emotion p = "calm" -> animationSpeed st' = 0.9 /\ bodyPose st' = "relaxed") /\
   (emotion p <> "happy" -> emotion p <> "sad" ->
    emotion p <> "excited" -> emotion p <> "calm" ->
    animationSpeed st' = animationSpeed (after_activity prev p st) /\
    bodyPose st' = bodyPose (after_activity prev p st))) /\
  (emotion_deps_changed prev p = false ->
   animationSpeed st' = animationSpeed (after_activity prev p st) /\
   bodyPose st' = bodyPose (after_activity prev p st)).
Proof.
  intros prev st st'.
  assert (st' = commit prev p st) as E by apply renders_snoc.
  split; [|split; [|split]].
  - pose proof (renders_clip_follows (history ++ [p]) None initial I) as H.
    rewrite map_app in H. cbn [map] in H. rewrite last_last in H. exact H.
  - rewrite E. apply commit_keeps_clip_of_activity.
  - intros Hrun. rewrite E. unfold commit. rewrite Hrun.
    unfold emotion_effect.
    split; [|split; [|split; [|split]]]; try (intros ->; split; reflexivity).
    intros H1 H2 H3 H4.
    apply String.eqb_neq in H1, H2, H3, H4. rewrite H1, H2, H3, H4. auto.
  - intros Hrun. rewrite E. unfold commit. rewrite Hrun. auto.
Qed.

(** C4, counterexample. Mounted with emotion "happy" while idle, then
    rendered with isSpeaking turned on and the emotion unchanged, the hook
    holds speed 1.2 and pose "engaged": the emotion is "happy" and the speed
    is not 1.3. Likewise, going from "happy" to "neutral" with listening and
    speaking unchanged keeps (1.3, cheerful) and not the idle values. *)
Lemma happy_override_is_lost :
  let happy_idle := {| isListening := false; isSpeaking := false; emotion := "happy" |} in
  let happy_talking := {| isListening := false; isSpeaking := true; emotion := "happy" |} in
  let neutral_idle := {| isListening := false; isSpeaking := false; emotion := "neutral" |} in
  let st := renders None [happy_idle; happy_talking] initial in
  let st2 := renders None [happy_idle; neutral_idle] initial in
  emotion happy_talking = "happy" /\
  animationSpeed st = 1.2 /\ bodyPose st = "engaged" /\
  ~ (animationSpeed st = 1.3 /\ bodyPose st = "cheerful") /\
  animationSpeed st2 = 1.3 /\ bodyPose st2 = "cheerful" /\
  animationSpeed (activity_effect neutral_idle initial) = 1.0.
Proof.
  repeat split.
  intros [_ H]. discriminate H.
Qed.

(** ** Further properties of the animation-state hook *)

Lemma commit_paired prev p st : paired st -> paired (commit prev p st).
Proof.
  intros Hst.
  assert (paired (after_activity prev p st)) as H1.
  { unfold after_activity. destruct (activity_deps_changed prev p); [|exact Hst].
    unfold activity_effect, paired.
    destruct (isSpeaking p); [|destruct (isListening p)]; simpl; tauto. }
  unfold commit. destruct (emotion_deps_changed prev p); [|exact H1].
  unfold emotion_effect.
  repeat match goal with
         | |- context [String.eqb ?a ?b] => destruct (String.eqb a b)
         end; try exact H1; unfold paired, with_pose_speed; simpl; tauto.
Qed.

Lemma renders_paired ps : forall prev st, paired st -> paired (renders prev ps st).
Proof.
  induction ps as [|p ps IH]; intros prev st Hst; cbn [renders]; [exact Hst|].
  apply IH. now apply commit_paired.
Qed.

(** X7. After any history of renders since mount, the speed and the pose
    the hook returns belong together: they are one of the three
    listening/speaking pairs or one of the four emotion pairs, never a speed
    of one with the pose of another; so the speed always lies between 0.7
    and 1.5. *)
Theorem speed_and_pose_stay_paired history :
  paired (renders None history initial) /\
  0.7 <= animationSpeed (renders None history initial) <= 1.5.
Proof.
  assert (paired (renders None history initial)) as H.
  { apply renders_paired. unfold paired, initial. simpl. tauto. }
  split; [exact H|].
  unfold paired in H.
  destruct H as [[-> _]|[[-> _]|[[-> _]|[[-> _]|[[-> _]|[[-> _]|[-> _]]]]]]]; lra.
Qed.


End CharacterAnimationFacts.

(** ** The avatar component: writes into the morph-target arrays *)

Module CharacterFacts.
Import Character.

Lemma read_write_channel dictionary channel index name value influences :
  injective dictionary ->
  JsObject.get channel dictionary = Some index ->
  JsArray.get index (write_channel dictionary name value influences)
  = if String.eqb channel name then Some value else JsArray.get index influences.
Proof.
  intros Hinj Hc. unfold write_channel.
  destruct (JsObject.get name dictionary) as [i|] eqn:Hn.
  - rewrite array_get_set.
    destruct (String.eqb_spec channel name) as [->|Hne].
    + assert (i = index) as -> by congruence. now rewrite Nat.eqb_refl.
    + destruct (Nat.eqb_spec i index) as [->|_]; [|reflexivity].
      exfalso. apply Hne. exact (Hinj _ _ _ Hc Hn).
  - destruct (String.eqb_spec channel name) as [->|_]; [congruence | reflexivity].
Qed.

Lemma read_write_channels dictionary channel index value names : forall influences,
  injective dictionary ->
  JsObject.get channel dictionary = Some index ->
  JsArray.get index (write_channels dictionary names value influences)
  = if is_one_of names channel then Some value else JsArray.get index influences.
Proof.
  unfold write_channels, is_one_of.
  induction names as [|name names IH]; intros influences Hinj Hc; simpl.
  - reflexivity.
  - rewrite IH by assumption. rewrite (read_write_channel _ _ _ _ _ _ Hinj Hc).
    destruct (String.eqb channel name); simpl.
    + now destruct (existsb (String.eqb channel) names).
    + reflexivity.
Qed.

Lemma read_lip_sync_pass dictionary channel index lip : forall influences,
  injective dictionary ->
  NoDup (JsObject.keys lip) ->
  JsObject.get channel dictionary = Some index ->
  JsArray.get index (lip_sync_pass lip dictionary influences)
  = match JsObject.get channel lip with
    | Some v => Some v
    | None => JsArray.get index influences
    end.
Proof.
  unfold lip_sync_pass, JsObject.entries.
  induction lip as [|[k v] lip IH]; intros influences Hinj Hnd Hc; simpl.
  - reflexivity.
  - inversion Hnd as [|? ? Hfresh Hnd']; subst.
    rewrite IH by assumption. rewrite (read_write_channel _ _ _ _ _ _ Hinj Hc).
    destruct (String.eqb_spec channel k) as [->|Hne].
    + apply get_None_keys in Hfresh. now rewrite Hfresh.
    + reflexivity.
Qed.

Lemma read_emotion_pass emotion dictionary channel index influences :
  injective dictionary ->
  JsObject.get channel dictionary = Some index ->
  JsArray.get index (emotion_pass emotion dictionary influences)
  = if is_one_of emotionTargets channel then Some (expression_weight emotion channel)
    else JsArray.get index influences.
Proof.
  intros Hinj Hc. unfold emotion_pass, expression_weight.
  destruct (String.eqb emotion "happy");
    [|destruct (String.eqb emotion "sad"); [|destruct (String.eqb emotion "surprised")]];
    repeat rewrite (read_write_channel _ _ _ _ _ _ Hinj Hc);
    repeat rewrite (read_write_channels _ _ _ _ _ _ Hinj Hc);
    unfold is_one_of, emotionTargets; simpl existsb;
    repeat match goal with
           | |- context [String.eqb channel ?s] => destruct (String.eqb channel s)
           end; reflexivity.
Qed.

Lemma read_blink_pass amount dictionary channel index influences :
  injective dictionary ->
  JsObject.get channel dictionary = Some index ->
  JsArray.get index (blink_pass amount dictionary influences)
  = if is_one_of eyeClosureChannels channel then Some amount
    else JsArray.get index influences.
Proof.
  intros Hinj Hc. unfold blink_pass.
  rewrite !(read_write_channel _ _ _ _ _ _ Hinj Hc).
  unfold is_one_of, eyeClosureChannels. simpl existsb.
  repeat match goal with
         | |- context [String.eqb channel ?s] => destruct (String.eqb channel s)
         end; reflexivity.
Qed.

Lemma nth_on_morph_meshes f avatarMeshes n mesh influences dictionary :
  nth_error avatarMeshes n = Some mesh ->
  morphTargetInfluences mesh = Some influences ->
  morphTargetDictionary mesh = Some dictionary ->
  nth_error (on_morph_meshes f avatarMeshes) n
  = Some {| morphTargetInfluences := Some (f dictionary influences);
            morphTargetDictionary := Some dictionary |}.
Proof.
  intros Hn Hi Hd. unfold on_morph_meshes.
  rewrite nth_error_map, Hn. simpl. now rewrite Hi, Hd.
Qed.

Lemma nth_on_morph_meshes_skipped f avatarMeshes n mesh :
  nth_error avatarMeshes n = Some mesh ->
  morphTargetInfluences mesh = None \/ morphTargetDictionary mesh = None ->
  nth_error (on_morph_meshes f avatarMeshes) n = Some mesh.
Proof.
  intros Hn Hskip. unfold on_morph_meshes.
  rewrite nth_error_map, Hn. simpl.
  destruct Hskip as [H|H]; rewrite H; [reflexivity|].
  now destruct (morphTargetInfluences mesh).
Qed.

Lemma apply_lip_sync_eq lip avatarMeshes :
  apply_lip_sync lip avatarMeshes = on_morph_meshes (lip_sync_pass lip) avatarMeshes.
Proof. now destruct avatarMeshes. Qed.

Lemma apply_emotion_eq emotion avatarMeshes :
  apply_emotion emotion avatarMeshes = on_morph_meshes (emotion_pass emotion) avatarMeshes.
Proof. now destruct avatarMeshes. Qed.

Lemma injective_of_distinct_indices (dictionary : dict nat) :
  NoDup (JsObject.values dictionary) -> injective dictionary.
Proof.
  unfold injective, JsObject.values.
  induction dictionary as [|[k i0] rest IH]; intros Hnd c1 c2 i H1 H2; simpl in *.
  - discriminate.
  - inversion Hnd as [|? ? Hfresh Hnd']; subst.
    destruct (String.eqb_spec c1 k) as [->|Hne1];
      destruct (String.eqb_spec c2 k) as [->|Hne2]; try congruence.
    + injection H1 as <-. apply get_In in H2.
      exfalso. apply Hfresh. apply (in_map snd) in H2. exact H2.
    + injection H2 as <-. apply get_In in H1.
      exfalso. apply Hfresh. apply (in_map snd) in H1. exact H1.
    + eauto.
Qed.

(** C9. For every mesh of the avatar and every emotion tag, the expression
    pass skips a mesh without influence array or dictionary and otherwise
    leaves, on every expression channel the mesh has, the reset value 0
    overridden by the static override of the tag: "surprised" gives 0.8 on
    eyeWideLeft and eyeWideRight, 0.3 on jawOpen and 0 on the other
    expression channels; a tag other than happy, sad and surprised gives 0 on
    all of them; channels outside the expression set keep their weight. The
    dictionary is taken to give distinct names distinct indices. *)
Theorem expression_pass_resets_then_overrides emotion avatarMeshes n mesh :
  nth_error avatarMeshes n = Some mesh ->
  (morphTargetInfluences mesh = None \/ morphTargetDictionary mesh = None ->
   nth_error (apply_emotion emotion avatarMeshes) n = Some mesh) /\
  (forall influences dictionary,
     morphTargetInfluences mesh = Some influences ->
     morphTargetDictionary mesh = Some dictionary ->
     injective dictionary ->
     exists influences',
       nth_error (apply_emotion emotion avatarMeshes) n
       = Some {| morphTargetInfluences := Some influences';
                 morphTargetDictionary := Some dictionary |} /\
       forall channel index,
         JsObject.get channel dictionary = Some index ->
         (In channel emotionTargets ->
          JsArray.get index influences' = Some (expression_weight emotion channel)) /\
         (In channel emotionTargets -> emotion = "surprised" ->
          JsArray.get index influences'
          = Some (if is_one_of ["eyeWideLeft"; "eyeWideRight"] channel then 0.8
                  else if String.eqb channel "jawOpen" then 0.3 else 0)) /\
         (In channel emotionTargets ->
          emotion <> "happy" -> emotion <> "sad" -> emotion <> "surprised" ->
          JsArray.get index influences' = Some 0) /\
         (~ In channel emotionTargets ->
          JsArray.get index influences' = JsArray.get index influences)).
Proof.
  intros Hn. rewrite apply_emotion_eq. split.
  - apply nth_on_morph_meshes_skipped. exact Hn.
  - intros influences dictionary Hi Hd Hinj. eexists.
    split; [apply (nth_on_morph_meshes _ _ _ _ _ _ Hn Hi Hd)|].
    intros channel index Hc.
    pose proof (read_emotion_pass emotion dictionary channel index influences Hinj Hc) as Hread.
    assert (In channel emotionTargets -> is_one_of emotionTargets channel = true) as Hin.
    { intros H. apply existsb_exists. exists channel. split; [exact H | apply String.eqb_refl]. }
    assert (~ In channel emotionTargets -> is_one_of emotionTargets channel = false) as Hout.
    { intros H. destruct (is_one_of emotionTargets channel) eqn:E; [|reflexivity].
      exfalso. apply H. apply existsb_exists in E as (x & Hx & Heq).
      apply String.eqb_eq in Heq. now subst. }
    repeat split.
    + intros H. now rewrite Hread, (Hin H).
    + intros H ->. now rewrite Hread, (Hin H).
    + intros H H1 H2 H3. rewrite Hread, (Hin H). unfold expression_weight.
      apply String.eqb_neq in H1, H2, H3. now rewrite H1, H2, H3.
    + intros H. now rewrite Hread, (Hout H).
Qed.

Lemma expression_pass_witness :
  exists influences',
    nth_error
      (apply_emotion "surprised"
         [ {| morphTargetInfluences := Some [Some 0.5; Some 0.5; Some 0.5; Some 0.5];
              morphTargetDictionary :=
                Some [("jawOpen", 0%nat); ("eyeWideLeft", 1%nat);
                      ("eyeWideRight", 2%nat); ("mouthSmileLeft", 3%nat)] |} ]) 0
    = Some {| morphTargetInfluences := Some influences';
              morphTargetDictionary :=
                Some [("jawOpen", 0%nat); ("eyeWideLeft", 1%nat);
                      ("eyeWideRight", 2%nat); ("mouthSmileLeft", 3%nat)] |} /\
    JsArray.get 0 influences' = Some 0.3 /\
    JsArray.get 1 influences' = Some 0.8 /\
    JsArray.get 3 influences' = Some 0.
Proof.
  assert (injective [("jawOpen", 0%nat); ("eyeWideLeft", 1%nat);
                     ("eyeWideRight", 2%nat); ("mouthSmileLeft", 3%nat)]) as Hinj.
  { apply injective_of_distinct_indices. simpl.
    repeat constructor; simpl; intuition discriminate. }
  destruct (expression_pass_resets_then_overrides "surprised"
              [ {| morphTargetInfluences := Some [Some 0.5; Some 0.5; Some 0.5; Some 0.5];
                   morphTargetDictionary :=
                     Some [("jawOpen", 0%nat); ("eyeWideLeft", 1%nat);
                           ("eyeWideRight", 2%nat); ("mouthSmileLeft", 3%nat)] |} ]
              0 _ eq_refl) as [_ H].
  destruct (H _ _ eq_refl eq_refl Hinj) as (influences' & Hnth & Hread).
  exists influences'. split; [exact Hnth|].
  split; [|split].
  - destruct (Hread "jawOpen" 0%nat eq_refl) as (_ & Hs & _).
    apply Hs; [simpl; tauto | reflexivity].
  - destruct (Hread "eyeWideLeft" 1%nat eq_refl) as (_ & Hs & _).
    apply Hs; [simpl; tauto | reflexivity].
  - destruct (Hread "mouthSmileLeft" 3%nat eq_refl) as (_ & Hs & _).
    apply Hs; [simpl; tauto | reflexivity].
Defined.


(** *** The blink of the frame callback *)

Lemma truncate_bounds x : 0 <= x -> IZR (truncate x) <= x < IZR (truncate x) + 1.
Proof.
  intros Hx. unfold truncate. destruct (Rle_dec 0 x) as [_|Hn]; [|contradiction].
  destruct (base_Int_part x). lra.
Qed.

Lemma truncate_unit x : 0 <= x < 1 -> truncate x = 0%Z.
Proof.
  intros Hx. unfold truncate. destruct (Rle_dec 0 x) as [_|Hn]; [|lra].
  symmetry. apply Int_part_spec. simpl. lra.
Qed.

Lemma blinkPhase_first_period time :
  0 <= time < blinkFrequency -> blinkPhase time = time / blinkFrequency.
Proof.
  unfold blinkPhase, js_rem, blinkFrequency. intros Ht.
  rewrite truncate_unit by lra. simpl. lra.
Qed.

(** The phase of an elapsed time lies in [0,1). *)
Lemma blinkPhase_range time : 0 <= time -> 0 <= blinkPhase time < 1.
Proof.
  unfold blinkPhase, js_rem, blinkFrequency. intros Ht.
  pose proof (truncate_bounds (time / 3)) as H.
  assert (0 <= time / 3) as H0 by lra. specialize (H H0). lra.
Qed.

(** Inside the active window the weight is the pulse
    [sin (phase * P / D * PI)], which lies in [0,1] and is 1 at the middle
    of the window. *)
Lemma blinkAmount_pulse time :
  0 <= time ->
  blinkPhase time < blinkDuration / blinkFrequency ->
  blinkAmount time = sin (blinkPhase time * blinkFrequency / blinkDuration * PI) /\
  0 <= blinkAmount time <= 1 /\
  (blinkPhase time = blinkDuration / blinkFrequency / 2 -> blinkAmount time = 1).
Proof.
  intros Ht Hw. pose proof (blinkPhase_range time Ht) as [Hp _].
  unfold blinkAmount. unfold blinkDuration, blinkFrequency in *.
  set (ph := blinkPhase time) in *.
  pose proof PI_RGT_0 as Hpi.
  split; [f_equal; lra | split].
  - split; [|apply SIN_bound].
    apply sin_ge_0; nra.
  - intros ->. replace (0.15 / 3 / 2 / (0.15 / 3) * PI) with (PI / 2) by lra.
    apply sin_PI2.
Qed.

(** Both eye-closure channels a mesh has receive the same value. *)
Lemma blink_pass_symmetric amount dictionary influences left_index right_index :
  JsObject.get "eyeBlinkLeft" dictionary = Some left_index ->
  JsObject.get "eyeBlinkRight" dictionary = Some right_index ->
  JsArray.get left_index (blink_pass amount dictionary influences) = Some amount /\
  JsArray.get right_index (blink_pass amount dictionary influences) = Some amount.
Proof.
  intros Hl Hr. unfold blink_pass, write_channel. rewrite Hl, Hr.
  rewrite !array_get_set, !Nat.eqb_refl.
  now destruct (Nat.eqb right_index left_index).
Qed.

(** Outside the active window the frame callback writes nothing. *)
Lemma blink_frame_outside_window time avatarMeshes :
  ~ blinkPhase time < blinkDuration / blinkFrequency ->
  blink_frame time avatarMeshes = avatarMeshes.
Proof.
  intros Hout. unfold blink_frame. destruct avatarMeshes; [reflexivity|].
  now destruct (Rlt_dec _ _).
Qed.

Lemma blink_frame_inside_window time avatarMeshes :
  blinkPhase time < blinkDuration / blinkFrequency ->
  blink_frame time avatarMeshes
  = on_morph_meshes (blink_pass (blinkAmount time)) avatarMeshes.
Proof.
  intros Hin. unfold blink_frame. destruct avatarMeshes; [reflexivity|].
  now destruct (Rlt_dec _ _).
Qed.

Lemma blinkAmount_late : blinkAmount 0.125 = 0.5.
Proof.
  unfold blinkAmount. rewrite blinkPhase_first_period by (unfold blinkFrequency; lra).
  unfold blinkDuration, blinkFrequency.
  replace (0.125 / 3 / (0.15 / 3) * PI) with (PI - PI / 6) by lra.
  rewrite sin_PI_x, sin_PI6. lra.
Qed.

(** The pulse rises up to the middle of the window and falls after it. *)
Lemma blinkAmount_unimodal t1 t2 :
  0 <= t1 -> 0 <= t2 ->
  blinkPhase t2 < blinkDuration / blinkFrequency ->
  blinkPhase t1 <= blinkPhase t2 ->
  (blinkPhase t2 <= blinkDuration / blinkFrequency / 2 ->
   blinkAmount t1 <= blinkAmount t2) /\
  (blinkDuration / blinkFrequency / 2 <= blinkPhase t1 ->
   blinkAmount t2 <= blinkAmount t1).
Proof.
  intros H1 H2 Hw Hle.
  pose proof (blinkPhase_range t1 H1) as [Hp1 _].
  pose proof (blinkPhase_range t2 H2) as [Hp2 _].
  unfold blinkAmount. unfold blinkDuration, blinkFrequency in *.
  set (p1 := blinkPhase t1) in *. set (p2 := blinkPhase t2) in *.
  pose proof PI_RGT_0 as Hpi.
  replace (p1 / (0.15 / 3) * PI) with (20 * p1 * PI) by lra.
  replace (p2 / (0.15 / 3) * PI) with (20 * p2 * PI) by lra.
  split; intros Hhalf.
  - apply sin_incr_1; nra.
  - apply sin_decr_1; nra.
Qed.

Example js_rem_second_period : js_rem 7 3 = 1.
Proof.
  unfold js_rem, truncate. destruct (Rle_dec 0 (7 / 3)) as [_|Hn]; [|lra].
  rewrite <- (Int_part_spec (7 / 3) 2); simpl; lra.
Qed.

Example array_write_extends : JsArray.set 2 1 [Some 0] = [Some 0; None; Some 1].
Proof. reflexivity. Qed.

Example target_name_first_match :
  target_name "talking" ["Idle_Breathing"; "Talking_01"; "talking_02"] = Some "Talking_01"
  /\ target_name "listening" ["Talking_01"; "Idle_Breathing"] = Some "Idle_Breathing"
  /\ target_name "listening" ["Talking_01"; "Wave"] = None.
Proof. repeat split. Qed.


(** C6, the code at a failing input. A frame at elapsed time 0.125 s lies in
    the active window and writes the weight 0.5 on both eye-closure
    channels; the next frame at 0.175 s lies outside the window and the
    callback writes nothing, so both channels still hold 0.5 instead of 0. *)
Theorem blink_weight_stays_after_the_window :
  blinkPhase 0.125 < blinkDuration / blinkFrequency /\
  ~ blinkPhase 0.175 < blinkDuration / blinkFrequency /\
  blink_frame 0.175
    (blink_frame 0.125
       [ {| morphTargetInfluences := Some [Some 0; Some 0];
            morphTargetDictionary :=
              Some [("eyeBlinkLeft", 0%nat); ("eyeBlinkRight", 1%nat)] |} ])
  = [ {| morphTargetInfluences := Some [Some 0.5; Some 0.5];
         morphTargetDictionary :=
           Some [("eyeBlinkLeft", 0%nat); ("eyeBlinkRight", 1%nat)] |} ].
Proof.
  assert (blinkPhase 0.125 < blinkDuration / blinkFrequency) as Hin.
  { rewrite blinkPhase_first_period; unfold blinkDuration, blinkFrequency; lra. }
  assert (~ blinkPhase 0.175 < blinkDuration / blinkFrequency) as Hout.
  { rewrite blinkPhase_first_period; unfold blinkDuration, blinkFrequency; lra. }
  split; [exact Hin | split; [exact Hout|]].
  rewrite (blink_frame_outside_window _ _ Hout), (blink_frame_inside_window _ _ Hin).
  rewrite blinkAmount_late. reflexivity.
Qed.


(** *** The three passes on one mesh *)

Lemma nth_commit_morph_effects lip_changed emotion_changed lip emotion
    avatarMeshes n mesh influences dictionary :
  nth_error avatarMeshes n = Some mesh ->
  morphTargetInfluences mesh = Some influences ->
  morphTargetDictionary mesh = Some dictionary ->
  nth_error (commit_morph_effects lip_changed emotion_changed lip emotion avatarMeshes) n
  = Some {| morphTargetInfluences :=
              Some ((if emotion_changed then emotion_pass emotion dictionary
                     else fun a => a)
                      ((if lip_changed then lip_sync_pass lip dictionary
                        else fun a => a) influences));
            morphTargetDictionary := Some dictionary |}.
Proof.
  intros Hn Hi Hd. unfold commit_morph_effects.
  rewrite apply_emotion_eq, apply_lip_sync_eq.
  destruct lip_changed, emotion_changed.
  - rewrite (nth_on_morph_meshes (emotion_pass emotion) _ n
               {| morphTargetInfluences := Some (lip_sync_pass lip dictionary influences);
                  morphTargetDictionary := Some dictionary |} _ _
               (nth_on_morph_meshes _ _ _ _ _ _ Hn Hi Hd) eq_refl eq_refl).
    reflexivity.
  - exact (nth_on_morph_meshes _ _ _ _ _ _ Hn Hi Hd).
  - exact (nth_on_morph_meshes _ _ _ _ _ _ Hn Hi Hd).
  - rewrite Hn. destruct mesh as [i d]. simpl in *. now subst.
Qed.

(** C3, as the code has it. The three passes write into the influence
    array of the mesh one after the other, the later write winning. After a
    render in which the lip-sync pass and the expression pass run as their
    dependencies changed, followed by a frame inside the blink window, a
    channel the mesh has holds: the blink value if it is one of the two
    eye-closure channels; else the expression value if the expression pass
    ran and the channel is one of the seven expression channels; else the
    lip-sync value if the lip-sync pass ran and the lip-sync map carries the
    channel; else the weight it held before. The dictionary is taken to give
    distinct names distinct indices. *)
Theorem passes_overwrite_in_call_order lip_changed emotion_changed lip emotion time
    avatarMeshes n mesh influences dictionary :
  nth_error avatarMeshes n = Some mesh ->
  morphTargetInfluences mesh = Some influences ->
  morphTargetDictionary mesh = Some dictionary ->
  injective dictionary ->
  NoDup (JsObject.keys lip) ->
  blinkPhase time < blinkDuration / blinkFrequency ->
  exists influences',
    nth_error
      (blink_frame time
         (commit_morph_effects lip_changed emotion_changed lip emotion avatarMeshes)) n
    = Some {| morphTargetInfluences := Some influences';
              morphTargetDictionary := Some dictionary |} /\
    forall channel index,
      JsObject.get channel dictionary = Some index ->
      JsArray.get index influences'
      = if is_one_of eyeClosureChannels channel then Some (blinkAmount time)
        else if emotion_changed && is_one_of emotionTargets channel
        then Some (expression_weight emotion channel)
        else if lip_changed then
               match JsObject.get channel lip with
               | Some v => Some v
               | None => JsArray.get index influences
               end
        else JsArray.get index influences.
Proof.
  intros Hn Hi Hd Hinj Hnd Hwin.
  rewrite (blink_frame_inside_window _ _ Hwin).
  pose proof (nth_commit_morph_effects lip_changed emotion_changed lip emotion
                _ _ _ _ _ Hn Hi Hd) as Hnth.
  eexists. split.
  - exact (nth_on_morph_meshes _ _ _ _ _ _ Hnth eq_refl eq_refl).
  - intros channel index Hc.
    rewrite (read_blink_pass _ _ _ _ _ Hinj Hc).
    destruct (is_one_of eyeClosureChannels channel); [reflexivity|].
    destruct emotion_changed; cbn [andb].
    + rewrite (read_emotion_pass _ _ _ _ _ Hinj Hc).
      destruct (is_one_of emotionTargets channel); [reflexivity|].
      destruct lip_changed; [|reflexivity].
      apply (read_lip_sync_pass _ _ _ _ _ Hinj Hnd Hc).
    + destruct lip_changed; [|reflexivity].
      apply (read_lip_sync_pass _ _ _ _ _ Hinj Hnd Hc).
Qed.

Lemma blink_window_at_late_frame : blinkPhase 0.125 < blinkDuration / blinkFrequency.
Proof. rewrite blinkPhase_first_period; unfold blinkDuration, blinkFrequency; lra. Qed.

Lemma passes_overwrite_witness :
  exists influences',
    nth_error
      (blink_frame 0.125
         (commit_morph_effects true true
            [("jawOpen", 0.49); ("mouthFunnel", 0.14)] "surprised"
            [ {| morphTargetInfluences := Some [Some 0; Some 0; Some 0];
                 morphTargetDictionary :=
                   Some [("jawOpen", 0%nat); ("mouthFunnel", 1%nat);
                         ("eyeBlinkLeft", 2%nat)] |} ])) 0
    = Some {| morphTargetInfluences := Some influences';
              morphTargetDictionary :=
                Some [("jawOpen", 0%nat); ("mouthFunnel", 1%nat);
                      ("eyeBlinkLeft", 2%nat)] |} /\
    JsArray.get 0 influences' = Some 0.3 /\
    JsArray.get 1 influences' = Some 0.14 /\
    JsArray.get 2 influences' = Some (blinkAmount 0.125).
Proof.
  assert (injective [("jawOpen", 0%nat); ("mouthFunnel", 1%nat);
                     ("eyeBlinkLeft", 2%nat)]) as Hinj.
  { apply injective_of_distinct_indices. simpl.
    repeat constructor; simpl; intuition discriminate. }
  assert (NoDup (JsObject.keys [("jawOpen", 0.49); ("mouthFunnel", 0.14)])) as Hnd.
  { apply distinct_NoDup. reflexivity. }
  destruct (passes_overwrite_in_call_order true true
              [("jawOpen", 0.49); ("mouthFunnel", 0.14)] "surprised" 0.125
              [ {| morphTargetInfluences := Some [Some 0; Some 0; Some 0];
                   morphTargetDictionary :=
                     Some [("jawOpen", 0%nat); ("mouthFunnel", 1%nat);
                           ("eyeBlinkLeft", 2%nat)] |} ]
              0 _ _ _ eq_refl eq_refl eq_refl Hinj Hnd blink_window_at_late_frame)
    as (influences' & Hnth & Hread).
  exists influences'. split; [exact Hnth|].
  split; [|split].
  - exact (Hread "jawOpen" 0%nat eq_refl).
  - exact (Hread "mouthFunnel" 1%nat eq_refl).
  - exact (Hread "eyeBlinkLeft" 2%nat eq_refl).
Defined.

(** C3, counterexample. The mesh list changes while the lip-sync map holds
    jaw-open 0.49 and the emotion is "surprised", so both passes run, and a
    frame inside the blink window follows. The layering of the
    specification gives jaw-open the lip-sync value 0.49; the mesh holds the
    expression value 0.3, as the expression pass ran after the lip-sync
    pass. *)
Lemma expression_pass_overrides_lip_sync :
  let mesh :=
    {| morphTargetInfluences := Some [Some 0; Some 0; Some 0];
       morphTargetDictionary :=
         Some [("jawOpen", 0%nat); ("eyeBlinkLeft", 1%nat); ("eyeBlinkRight", 2%nat)] |} in
  let lip := [("jawOpen", 0.49)] in
  exists mesh',
    blink_frame 0.125 (commit_morph_effects true true lip "surprised" [mesh]) = [mesh'] /\
    layered "surprised" lip (blinkAmount 0.125) "jawOpen" = Some 0.49 /\
    channel_weight mesh' "jawOpen" = Some 0.3 /\
    channel_weight mesh' "jawOpen" <> layered "surprised" lip (blinkAmount 0.125) "jawOpen".
Proof.
  intros mesh lip.
  rewrite (blink_frame_inside_window _ _ blink_window_at_late_frame).
  eexists. split; [reflexivity|].
  split; [reflexivity|]. split; [reflexivity|].
  change (Some 0.3 <> Some 0.49). intros [= H]. lra.
Qed.


(** *** The animation-change effect *)

Lemma find_existsb {A : Type} (f : A -> bool) l :
  existsb f l = match find f l with Some _ => true | None => false end.
Proof.
  induction l as [|x l IH]; simpl; [reflexivity|].
  destruct (f x); [reflexivity | exact IH].
Qed.

Lemma target_name_cases currentAnimation availableAnimations :
  target_name currentAnimation availableAnimations
  = match find (matches (JsString.toLowerCase currentAnimation)) availableAnimations with
    | Some name => Some name
    | None => find (matches "idle") availableAnimations
    end.
Proof.
  unfold target_name. rewrite !find_existsb.
  destruct (find (matches (JsString.toLowerCase currentAnimation)) availableAnimations);
    [reflexivity|].
  now destruct (find (matches "idle") availableAnimations).
Qed.

Lemma get_stopped k (actions : dict AnimationAction) :
  JsObject.get k (map (fun entry => (fst entry, stop (snd entry))) actions)
  = option_map stop (JsObject.get k actions).
Proof. apply (get_map_values stop). Qed.

Lemma keys_stopped (actions : dict AnimationAction) :
  JsObject.keys (map (fun entry => (fst entry, stop (snd entry))) actions)
  = JsObject.keys actions.
Proof. apply (keys_map_values stop). Qed.

(** C5, as the code has it. On an animation-state change with the mixer
    set, every action is stopped first. The requested name, lower-cased, is
    then looked for as a substring of the lower-cased clip names in
    enumeration order; the first clip that contains it is selected, or else
    the first clip whose name contains "idle". A selected clip is restarted,
    set to loop and played, and it is the only one playing; when no clip is
    selected no action is playing. Without a mixer the effect does
    nothing. *)
Theorem animation_change_selects_or_stops currentAnimation actions :
  let available := JsObject.keys actions in
  let requested := JsString.toLowerCase currentAnimation in
  let result := handle_animation_change true currentAnimation actions in
  (forall name,
     find (matches requested) available = Some name ->
     target_name currentAnimation available = Some name
     /\ In name available /\ matches requested name = true) /\
  (find (matches requested) available = None ->
   (forall name, In name available -> matches requested name = false)
   /\ target_name currentAnimation available = find (matches "idle") available) /\
  (forall name, In name (JsObject.keys result) <-> In name available) /\
  (forall name,
     target_name currentAnimation available = Some name ->
     forall k a,
       JsObject.get k result = Some a ->
       playing a = String.eqb k name
       /\ (k = name -> looping a = true /\ restarted a = true)) /\
  (target_name currentAnimation available = None ->
   forall k a, JsObject.get k result = Some a -> playing a = false) /\
  handle_animation_change false currentAnimation actions = actions.
Proof.
  intros available requested result.
  assert (forall name, target_name currentAnimation available = Some name ->
                       In name available) as Hsel.
  { intros name. rewrite target_name_cases. fold requested.
    destruct (find (matches requested) available) eqn:E.
    - intros [= <-]. now apply find_some in E.
    - intros E'. now apply find_some in E'. }
  split; [|split; [|split; [|split; [|split]]]].
  - intros name Hfind. rewrite target_name_cases. fold requested. rewrite Hfind.
    apply find_some in Hfind. tauto.
  - intros Hfind. split.
    + intros name Hin. exact (find_none _ _ Hfind name Hin).
    + rewrite target_name_cases. fold requested. now rewrite Hfind.
  - intros name. unfold result, handle_animation_change. cbn [negb].
    rewrite keys_stopped. fold available.
    destruct (target_name currentAnimation available) as [sel|] eqn:E;
      [|now rewrite keys_stopped].
    rewrite get_stopped.
    destruct (JsObject.get sel actions) as [a0|] eqn:E0; cbn [option_map];
      [|now rewrite keys_stopped].
    rewrite keys_set, keys_stopped. fold available.
    split; [intros [->|H]; auto | auto].
  - intros name Hname k a. unfold result, handle_animation_change. cbn [negb].
    rewrite keys_stopped. fold available. rewrite Hname, get_stopped.
    specialize (Hsel name Hname). apply get_keys in Hsel as [a0 Ha0].
    rewrite Ha0. cbn [option_map].
    destruct (String.eqb_spec k name) as [->|Hne].
    + rewrite get_set_same. intros [= <-]. auto.
    + rewrite get_set_other by assumption. rewrite get_stopped.
      destruct (JsObject.get k actions); [|discriminate].
      intros [= <-]. split; [reflexivity | contradiction].
  - intros Hnone k a. unfold result, handle_animation_change. cbn [negb].
    rewrite keys_stopped. fold available. rewrite Hnone, get_stopped.
    destruct (JsObject.get k actions); [|discriminate].
    now intros [= <-].
  - reflexivity.
Qed.

(** C5, counterexample. With the single clip "Talking" playing and the
    state changing to "idle", no clip name contains "idle": no clip is
    selected, yet the change is not a no-op, as the clip that was playing
    has been stopped. *)
Lemma unmatched_change_stops_the_playing_clip :
  let talking := {| playing := true; looping := true; restarted := true |} in
  target_name "idle" (JsObject.keys [("Talking", talking)]) = None /\
  handle_animation_change true "idle" [("Talking", talking)]
  = [("Talking", {| playing := false; looping := true; restarted := true |})] /\
  handle_animation_change true "idle" [("Talking", talking)] <> [("Talking", talking)].
Proof.
  intros talking. split; [reflexivity | split; [reflexivity | discriminate]].
Qed.


(** ** Further properties of the avatar component *)

(** *** Arrays under writes *)

Lemma array_set_length i v : forall a,
  List.length (JsArray.set i v a) = Nat.max (List.length a) (S i).
Proof.
  induction i as [|i IH]; intros [|x a]; simpl; try reflexivity.
  - now destruct (List.length a).
  - rewrite IH. reflexivity.
  - rewrite IH. reflexivity.
Qed.

Lemma array_ext (a b : JsArray.t) :
  List.length a = List.length b ->
  (forall j, JsArray.get j a = JsArray.get j b) ->
  a = b.
Proof.
  revert b. induction a as [|x a IH]; intros [|y b] Hlen Hget; try discriminate.
  - reflexivity.
  - f_equal.
    + exact (Hget 0%nat).
    + apply IH; [now injection Hlen|]. intros j. exact (Hget (S j)).
Qed.

Lemma write_channel_get dictionary name value influences j :
  JsArray.get j (write_channel dictionary name value influences)
  = if index_of_one dictionary [name] j then Some value else JsArray.get j influences.
Proof.
  unfold write_channel, index_of_one. simpl.
  destruct (JsObject.get name dictionary) as [i|]; simpl; [|reflexivity].
  rewrite array_get_set, orb_false_r. reflexivity.
Qed.

Lemma write_channels_get dictionary value names : forall influences j,
  JsArray.get j (write_channels dictionary names value influences)
  = if index_of_one dictionary names j then Some value else JsArray.get j influences.
Proof.
  unfold write_channels.
  induction names as [|name names IH]; intros influences j; simpl; [reflexivity|].
  rewrite IH, write_channel_get. unfold index_of_one. simpl.
  rewrite orb_false_r.
  destruct (existsb _ names); [now rewrite orb_true_r|].
  now rewrite orb_false_r.
Qed.

Lemma write_channel_length dictionary name value influences :
  List.length (write_channel dictionary name value influences)
  = Nat.max (List.length influences)
      (match JsObject.get name dictionary with Some i => S i | None => 0 end).
Proof.
  unfold write_channel. destruct (JsObject.get name dictionary) as [i|].
  - apply array_set_length.
  - now rewrite Nat.max_0_r.
Qed.

Lemma write_channel_length_within dictionary name value influences :
  (forall i, JsObject.get name dictionary = Some i -> (i < List.length influences)%nat) ->
  List.length (write_channel dictionary name value influences) = List.length influences.
Proof.
  intros H. rewrite write_channel_length.
  destruct (JsObject.get name dictionary) as [i|]; [|lia].
  specialize (H i eq_refl). lia.
Qed.

Lemma write_channel_length_le dictionary name value influences :
  (List.length influences <= List.length (write_channel dictionary name value influences))%nat.
Proof. rewrite write_channel_length. lia. Qed.

Lemma write_channels_length_within dictionary value names : forall influences,
  (forall name i, In name names -> JsObject.get name dictionary = Some i ->
                  (i < List.length influences)%nat) ->
  List.length (write_channels dictionary names value influences) = List.length influences.
Proof.
  unfold write_channels.
  induction names as [|name names IH]; intros influences H; simpl; [reflexivity|].
  assert (List.length (write_channel dictionary name value influences) = List.length influences) as E.
  { apply write_channel_length_within. intros i. apply H. now left. }
  rewrite IH; [exact E|].
  intros n i Hn Hi. rewrite E. apply (H n i); [now right | exact Hi].
Qed.

Lemma write_channels_length_covers dictionary value names : forall influences,
  (List.length influences <= List.length (write_channels dictionary names value influences))%nat /\
  forall name i, In name names -> JsObject.get name dictionary = Some i ->
                 (i < List.length (write_channels dictionary names value influences))%nat.
Proof.
  unfold write_channels.
  induction names as [|name names IH]; intros influences; simpl.
  - split; [lia | contradiction].
  - destruct (IH (write_channel dictionary name value influences)) as [Hle Hcov].
    pose proof (write_channel_length dictionary name value influences) as Hlen.
    split; [lia|].
    intros n i [<-|Hn] Hi; [|exact (Hcov n i Hn Hi)].
    rewrite Hi in Hlen. lia.
Qed.


(** *** The expression pass *)

(** On an index of an expression channel the pass leaves what it would
    leave on the empty array; any other index keeps its weight. *)
Lemma emotion_pass_get emotion dictionary influences j :
  JsArray.get j (emotion_pass emotion dictionary influences)
  = if index_of_one dictionary emotionTargets j
    then JsArray.get j (emotion_pass emotion dictionary [])
    else JsArray.get j influences.
Proof.
  unfold emotion_pass.
  destruct (String.eqb emotion "happy");
    [|destruct (String.eqb emotion "sad"); [|destruct (String.eqb emotion "surprised")]];
    repeat rewrite ?write_channel_get, ?write_channels_get;
    unfold index_of_one, emotionTargets; simpl existsb;
    repeat match goal with
           | |- context [match JsObject.get ?n dictionary with _ => _ end] =>
               destruct (match JsObject.get n dictionary with
                         | Some i => Nat.eqb i j
                         | None => false
                         end)
           end; reflexivity.
Qed.

Lemma emotion_pass_length emotion dictionary influences :
  List.length (emotion_pass emotion dictionary influences)
  = List.length (write_channels dictionary emotionTargets 0 influences).
Proof.
  destruct (write_channels_length_covers dictionary 0 emotionTargets influences)
    as [_ Hcov].
  set (cleared := write_channels dictionary emotionTargets 0 influences) in *.
  assert (forall name value a,
            In name emotionTargets -> List.length a = List.length cleared ->
            List.length (write_channel dictionary name value a) = List.length cleared)
    as Hstep.
  { intros name value a Hn Ha. rewrite write_channel_length_within; [exact Ha|].
    intros i Hi. rewrite Ha. exact (Hcov name i Hn Hi). }
  unfold emotion_pass. fold cleared.
  destruct (String.eqb emotion "happy");
    [|destruct (String.eqb emotion "sad"); [|destruct (String.eqb emotion "surprised")]].
  - apply (write_channels_length_within dictionary 0.7 _ cleared). intros name i Hn Hi.
    apply (Hcov name i); [|exact Hi]. simpl in *. tauto.
  - apply (write_channels_length_within dictionary 0.5 _ cleared). intros name i Hn Hi.
    apply (Hcov name i); [|exact Hi]. simpl in *. tauto.
  - do 3 (apply Hstep; [simpl; tauto|]). reflexivity.
  - reflexivity.
Qed.

Lemma emotion_pass_after_emotion_pass e1 e2 dictionary influences :
  emotion_pass e2 dictionary (emotion_pass e1 dictionary influences)
  = emotion_pass e2 dictionary influences.
Proof.
  apply array_ext.
  - rewrite !emotion_pass_length.
    destruct (write_channels_length_covers dictionary 0 emotionTargets influences)
      as [_ Hcov].
    rewrite (write_channels_length_within dictionary 0 emotionTargets
               (emotion_pass e1 dictionary influences)).
    + apply emotion_pass_length.
    + intros name i Hn Hi. rewrite emotion_pass_length. exact (Hcov name i Hn Hi).
  - intros j. rewrite (emotion_pass_get e2 dictionary (emotion_pass e1 dictionary influences)).
    rewrite (emotion_pass_get e2 dictionary influences).
    destruct (index_of_one dictionary emotionTargets j) eqn:E; [reflexivity|].
    now rewrite emotion_pass_get, E.
Qed.

Lemma on_morph_meshes_twice f g avatarMeshes :
  on_morph_meshes f (on_morph_meshes g avatarMeshes)
  = on_morph_meshes (fun d a => f d (g d a)) avatarMeshes.
Proof.
  unfold on_morph_meshes. rewrite map_map. apply map_ext. intros mesh.
  destruct (morphTargetInfluences mesh) as [a|] eqn:Ei;
    destruct (morphTargetDictionary mesh) as [d|] eqn:Ed; simpl;
    rewrite ?Ei, ?Ed; reflexivity.
Qed.

Lemma on_morph_meshes_ext f g avatarMeshes :
  (forall mesh d a, In mesh avatarMeshes ->
                    morphTargetInfluences mesh = Some a ->
                    morphTargetDictionary mesh = Some d -> f d a = g d a) ->
  on_morph_meshes f avatarMeshes = on_morph_meshes g avatarMeshes.
Proof.
  intros H. unfold on_morph_meshes. apply map_ext_in. intros mesh Hin.
  destruct (morphTargetInfluences mesh) as [a|] eqn:Ei;
    destruct (morphTargetDictionary mesh) as [d|] eqn:Ed; try reflexivity.
  now rewrite (H mesh d a Hin Ei Ed).
Qed.

Lemma on_morph_meshes_id f avatarMeshes :
  (forall mesh d a, In mesh avatarMeshes ->
                    morphTargetInfluences mesh = Some a ->
                    morphTargetDictionary mesh = Some d -> f d a = a) ->
  on_morph_meshes f avatarMeshes = avatarMeshes.
Proof.
  intros H. unfold on_morph_meshes. rewrite <- (map_id avatarMeshes) at 2.
  apply map_ext_in. intros mesh Hin.
  destruct mesh as [[a|] [d|]]; try reflexivity.
  simpl. now rewrite (H _ d a Hin eq_refl eq_refl).
Qed.

(** X8. The expression effect leaves no trace of the previous emotion:
    running it for one emotion and then for another leaves every influence
    array exactly as running it for the second alone, whatever the
    dictionaries are; in particular running it twice for the same emotion
    changes nothing more. *)
Theorem expression_effect_forgets_the_previous_emotion e1 e2 avatarMeshes :
  apply_emotion e2 (apply_emotion e1 avatarMeshes) = apply_emotion e2 avatarMeshes /\
  apply_emotion e2 (apply_emotion e2 avatarMeshes) = apply_emotion e2 avatarMeshes.
Proof.
  assert (forall a b,
            apply_emotion b (apply_emotion a avatarMeshes) = apply_emotion b avatarMeshes)
    as H.
  { intros a b. rewrite !apply_emotion_eq, on_morph_meshes_twice.
    apply on_morph_meshes_ext. intros mesh d infl _ _ _.
    apply emotion_pass_after_emotion_pass. }
  split; apply H.
Qed.


(** *** Meshes without the channels, and array bounds *)

Lemma write_channel_lacking dictionary name value influences :
  JsObject.get name dictionary = None ->
  write_channel dictionary name value influences = influences.
Proof. intros H. unfold write_channel. now rewrite H. Qed.

Lemma write_channels_lacking dictionary value names : forall influences,
  lacks dictionary names ->
  write_channels dictionary names value influences = influences.
Proof.
  unfold write_channels.
  induction names as [|name names IH]; intros influences H; simpl; [reflexivity|].
  rewrite write_channel_lacking by (apply H; now left).
  apply IH. intros n Hn. apply H. now right.
Qed.

Lemma lip_sync_pass_lacking lip dictionary : forall influences,
  lacks dictionary (JsObject.keys lip) ->
  lip_sync_pass lip dictionary influences = influences.
Proof.
  unfold lip_sync_pass, JsObject.entries, JsObject.keys.
  induction lip as [|[k v] lip IH]; intros influences H; simpl; [reflexivity|].
  rewrite write_channel_lacking by (apply H; now left).
  apply IH. intros n Hn. apply H. now right.
Qed.

Lemma emotion_pass_lacking emotion dictionary influences :
  lacks dictionary emotionTargets ->
  emotion_pass emotion dictionary influences = influences.
Proof.
  intros H. unfold emotion_pass.
  rewrite (write_channels_lacking _ _ emotionTargets) by exact H.
  destruct (String.eqb emotion "happy");
    [|destruct (String.eqb emotion "sad"); [|destruct (String.eqb emotion "surprised")]].
  - apply write_channels_lacking. intros n Hn. apply H. simpl in *. tauto.
  - apply write_channels_lacking. intros n Hn. apply H. simpl in *. tauto.
  - rewrite !write_channel_lacking; [reflexivity| | |]; apply H; simpl; tauto.
  - reflexivity.
Qed.

Lemma blink_pass_lacking amount dictionary influences :
  lacks dictionary eyeClosureChannels ->
  blink_pass amount dictionary influences = influences.
Proof.
  intros H. unfold blink_pass.
  rewrite !write_channel_lacking; [reflexivity| |]; apply H; simpl; tauto.
Qed.

(** X9. A mesh that has no influence array or no dictionary, or whose
    dictionary has none of the channels a pass writes, is left exactly as it
    is by that pass (nothing is written and the array does not grow); so on
    an avatar without these channels the three passes change nothing. *)
Theorem passes_skip_meshes_without_the_channels lip emotion time avatarMeshes :
  (forall mesh dictionary,
     In mesh avatarMeshes -> morphTargetDictionary mesh = Some dictionary ->
     lacks dictionary (JsObject.keys lip ++ emotionTargets ++ eyeClosureChannels)) ->
  apply_lip_sync lip avatarMeshes = avatarMeshes /\
  apply_emotion emotion avatarMeshes = avatarMeshes /\
  blink_frame time avatarMeshes = avatarMeshes.
Proof.
  intros H.
  assert (forall mesh d names,
            In mesh avatarMeshes -> morphTargetDictionary mesh = Some d ->
            (forall n, In n names ->
                       In n (JsObject.keys lip ++ emotionTargets ++ eyeClosureChannels)) ->
            lacks d names) as Hl.
  { intros mesh d names Hin Hd Hsub n Hn. exact (H mesh d Hin Hd n (Hsub n Hn)). }
  split; [|split].
  - rewrite apply_lip_sync_eq. apply on_morph_meshes_id.
    intros mesh d a Hin _ Hd. apply lip_sync_pass_lacking.
    apply (Hl mesh d _ Hin Hd). intros n Hn. apply in_or_app. now left.
  - rewrite apply_emotion_eq. apply on_morph_meshes_id.
    intros mesh d a Hin _ Hd. apply emotion_pass_lacking.
    apply (Hl mesh d _ Hin Hd). intros n Hn.
    apply in_or_app. right. apply in_or_app. now left.
  - unfold blink_frame. destruct avatarMeshes as [|m ms] eqn:E; [reflexivity|].
    destruct (Rlt_dec _ _); [|reflexivity].
    rewrite <- E in *. apply on_morph_meshes_id.
    intros mesh d a Hin _ Hd. apply blink_pass_lacking.
    apply (Hl mesh d _ Hin Hd). intros n Hn.
    apply in_or_app. right. apply in_or_app. now right.
Qed.

Lemma passes_skip_witness :
  apply_emotion "happy"
    [ {| morphTargetInfluences := Some [Some 0.2];
         morphTargetDictionary := Some [("browDownLeft", 0%nat)] |};
      {| morphTargetInfluences := None; morphTargetDictionary := None |} ]
  = [ {| morphTargetInfluences := Some [Some 0.2];
         morphTargetDictionary := Some [("browDownLeft", 0%nat)] |};
      {| morphTargetInfluences := None; morphTargetDictionary := None |} ].
Proof.
  apply (passes_skip_meshes_without_the_channels [("jawOpen", 0.49)] "happy" 0).
  intros mesh dictionary [<-|[<-|[]]]; simpl; intros [= <-] name Hname.
  simpl in Hname.
  repeat (destruct Hname as [<-|Hname]; [reflexivity|]). contradiction.
Defined.

Lemma lip_sync_pass_length lip dictionary : forall influences,
  (List.length influences <= List.length (lip_sync_pass lip dictionary influences))%nat /\
  (within dictionary influences ->
   List.length (lip_sync_pass lip dictionary influences) = List.length influences).
Proof.
  unfold lip_sync_pass, JsObject.entries.
  induction lip as [|[k v] lip IH]; intros influences; simpl; [auto|].
  destruct (IH (write_channel dictionary k v influences)) as [Hle Hin].
  pose proof (write_channel_length_le dictionary k v influences).
  split; [lia|]. intros Hw.
  assert (List.length (write_channel dictionary k v influences) = List.length influences) as E.
  { apply write_channel_length_within. intros i. apply Hw. }
  rewrite Hin; [exact E|]. intros n i Hi. rewrite E. exact (Hw n i Hi).
Qed.

(** X10. No pass ever shortens an influence array, and when every index of
    the dictionary lies within the array each of the three passes keeps its
    length; only an index past the end makes the array grow, to that index
    plus one. *)
Theorem passes_keep_the_array_length lip emotion amount dictionary influences :
  (List.length influences <= List.length (lip_sync_pass lip dictionary influences))%nat /\
  (List.length influences <= List.length (emotion_pass emotion dictionary influences))%nat /\
  (List.length influences <= List.length (blink_pass amount dictionary influences))%nat /\
  (within dictionary influences ->
   List.length (lip_sync_pass lip dictionary influences) = List.length influences /\
   List.length (emotion_pass emotion dictionary influences) = List.length influences /\
   List.length (blink_pass amount dictionary influences) = List.length influences) /\
  (forall name index value,
     JsObject.get name dictionary = Some index ->
     (List.length influences <= index)%nat ->
     List.length (write_channel dictionary name value influences) = S index).
Proof.
  destruct (lip_sync_pass_length lip dictionary influences) as [Hlip Hlip'].
  destruct (write_channels_length_covers dictionary 0 emotionTargets influences)
    as [Hemo _].
  rewrite <- emotion_pass_length with (emotion := emotion) in Hemo.
  split; [exact Hlip | split; [exact Hemo | split; [|split]]].
  - unfold blink_pass.
    pose proof (write_channel_length_le dictionary "eyeBlinkLeft" amount influences).
    pose proof (write_channel_length_le dictionary "eyeBlinkRight" amount
                  (write_channel dictionary "eyeBlinkLeft" amount influences)).
    lia.
  - intros Hw. split; [exact (Hlip' Hw) | split].
    + rewrite emotion_pass_length. apply write_channels_length_within.
      intros n i _. apply Hw.
    + unfold blink_pass.
      assert (List.length (write_channel dictionary "eyeBlinkLeft" amount influences)
              = List.length influences) as E
        by (apply write_channel_length_within; intros i; apply Hw).
      rewrite write_channel_length_within; [exact E|].
      intros i Hi. rewrite E. exact (Hw _ i Hi).
  - intros name index value Hi Hle. rewrite write_channel_length, Hi. lia.
Qed.


(** *** Periodicity of the blink *)

Lemma truncate_succ x : 0 <= x -> truncate (x + 1) = (truncate x + 1)%Z.
Proof.
  intros Hx. unfold truncate.
  destruct (Rle_dec 0 x) as [_|Hn]; [|contradiction].
  destruct (Rle_dec 0 (x + 1)) as [_|Hn]; [|lra].
  symmetry. apply Int_part_spec. rewrite plus_IZR.
  destruct (base_Int_part x). simpl. lra.
Qed.

Lemma blinkPhase_next_period time :
  0 <= time -> blinkPhase (time + blinkFrequency) = blinkPhase time.
Proof.
  intros Ht. unfold blinkPhase, js_rem, blinkFrequency.
  replace ((time + 3) / 3) with (time / 3 + 1) by lra.
  rewrite truncate_succ by lra. rewrite plus_IZR. simpl. lra.
Qed.

(** X11. The blink is periodic with period 3 s: for an elapsed time that is
    not negative, the phase, the pulse value and what the frame callback
    writes are the same any whole number of periods later. *)
Theorem blink_repeats_every_period n : forall time avatarMeshes,
  0 <= time ->
  blinkPhase (time + INR n * blinkFrequency) = blinkPhase time /\
  blinkAmount (time + INR n * blinkFrequency) = blinkAmount time /\
  blink_frame (time + INR n * blinkFrequency) avatarMeshes
  = blink_frame time avatarMeshes.
Proof.
  intros time avatarMeshes Ht.
  assert (blinkPhase (time + INR n * blinkFrequency) = blinkPhase time) as Hp.
  { induction n as [|n IH].
    - simpl. f_equal. lra.
    - rewrite S_INR.
      replace (time + (INR n + 1) * blinkFrequency)
        with (time + INR n * blinkFrequency + blinkFrequency) by lra.
      rewrite blinkPhase_next_period; [exact IH|].
      pose proof (pos_INR n). unfold blinkFrequency. nra. }
  assert (blinkAmount (time + INR n * blinkFrequency) = blinkAmount time) as Ha
    by (unfold blinkAmount; now rewrite Hp).
  split; [exact Hp | split; [exact Ha|]].
  unfold blink_frame. now rewrite Hp, Ha.
Qed.

Lemma blink_repeats_witness :
  blinkPhase (0.125 + INR 2 * blinkFrequency) = blinkPhase 0.125.
Proof.
  assert (0 <= 0.125) as H by lra.
  exact (proj1 (blink_repeats_every_period 2 0.125 [] H)).
Defined.

(** *** Breathing *)

Lemma breathe_frames_not_idle currentAnimation times : forall group,
  currentAnimation <> "idle" ->
  breathe_frames currentAnimation times group = group.
Proof.
  induction times as [|t times IH]; intros group Hne; simpl; [reflexivity|].
  rewrite IH by assumption. unfold breathe.
  destruct group; [|reflexivity].
  apply String.eqb_neq in Hne. now rewrite Hne.
Qed.

Lemma breathe_frames_idle times : forall g,
  exists g',
    breathe_frames "idle" times (Some g) = Some g' /\
    Rabs (position_y g' - position_y g) <= 0.005 * INR (List.length times) /\
    (times <> [] -> Rabs (rotation_y g') <= 0.01).
Proof.
  induction times as [|t times IH]; intros g.
  - exists g. split; [reflexivity|]. split; [|congruence].
    simpl. replace (position_y g - position_y g) with 0 by ring.
    rewrite Rabs_R0. lra.
  - cbn [breathe_frames breathe]. rewrite String.eqb_refl.
    destruct (IH {| position_y := position_y g + sin (t * 2) * 0.005;
                    rotation_y := sin (t * 0.5) * 0.01 |}) as (g' & Hrun & Hy & Hrot).
    exists g'. split; [exact Hrun|]. cbn [position_y rotation_y] in *.
    split.
    + change (List.length (t :: times)) with (S (List.length times)). rewrite S_INR.
      pose proof (SIN_bound (t * 2)) as [Hlo Hhi].
      pose proof (Rle_abs (position_y g' - (position_y g + sin (t * 2) * 0.005))) as H1.
      pose proof (Rle_abs (- (position_y g' - (position_y g + sin (t * 2) * 0.005)))) as H2.
      rewrite Rabs_Ropp in H2.
      apply Rabs_le. lra.
    + intros _. destruct times as [|t' times'].
      * simpl in Hrun. injection Hrun as <-. cbn [rotation_y].
        pose proof (SIN_bound (t * 0.5)) as [Hlo Hhi].
        apply Rabs_le. lra.
      * apply Hrot. discriminate.
Qed.

(** X12. The breathing of the frame callback moves the group only while the
    current animation is "idle". Over any frames in the idle state the
    height changes by at most 0.005 per frame (the offsets add up, frame
    after frame) and the turn about the vertical axis, which each frame sets
    anew, stays within 0.01; in any other state, and without a group, the
    frames change nothing. *)
Theorem breathing_is_small_and_only_when_idle currentAnimation times group :
  (currentAnimation <> "idle" ->
   breathe_frames currentAnimation times group = group) /\
  breathe_frames currentAnimation times None = None /\
  (forall g,
     currentAnimation = "idle" -> group = Some g ->
     exists g',
       breathe_frames currentAnimation times group = Some g' /\
       Rabs (position_y g' - position_y g) <= 0.005 * INR (List.length times) /\
       (times <> [] -> Rabs (rotation_y g') <= 0.01)).
Proof.
  split; [apply breathe_frames_not_idle | split].
  - induction times as [|t times IH]; simpl; [reflexivity | exact IH].
  - intros g -> ->. apply breathe_frames_idle.
Qed.


(** *** More on the animation clips *)

Section DictUpdateFacts.
Context {V : Type}.
Implicit Types (o : dict V) (k : string) (v : V).

Lemma set_set k v v' o : JsObject.set k v (JsObject.set k v' o) = JsObject.set k v o.
Proof.
  induction o as [|[k0 v0] rest IH]; simpl.
  - now rewrite String.eqb_refl.
  - destruct (String.eqb k k0) eqn:E; simpl; rewrite E; [reflexivity|].
    now rewrite IH.
Qed.

Lemma map_values_set (g : V -> V) k v o :
  map (fun kv => (fst kv, g (snd kv))) (JsObject.set k v o)
  = JsObject.set k (g v) (map (fun kv => (fst kv, g (snd kv))) o).
Proof.
  induction o as [|[k0 v0] rest IH]; simpl; [reflexivity|].
  destruct (String.eqb k k0); simpl; [reflexivity|]. now rewrite IH.
Qed.

Lemma keys_set_present k v o :
  In k (JsObject.keys o) -> JsObject.keys (JsObject.set k v o) = JsObject.keys o.
Proof.
  intros Hin. rewrite keys_set_as_Set_add. unfold JsObject.Set_add.
  now destruct (in_dec string_dec k (JsObject.keys o)).
Qed.

End DictUpdateFacts.

Lemma stop_stop a : stop (stop a) = stop a.
Proof. reflexivity. Qed.

Lemma handle_animation_change_selected currentAnimation actions name :
  target_name currentAnimation (JsObject.keys actions) = Some name ->
  handle_animation_change true currentAnimation actions
  = JsObject.set name {| playing := true; looping := true; restarted := true |}
      (map (fun entry => (fst entry, stop (snd entry))) actions).
Proof.
  intros Hname. unfold handle_animation_change. cbn [negb].
  rewrite keys_stopped, Hname, get_stopped.
  assert (In name (JsObject.keys actions)) as Hin.
  { rewrite target_name_cases in Hname.
    destruct (find _ (JsObject.keys actions)) eqn:E.
    - injection Hname as <-. now apply find_some in E.
    - now apply find_some in Hname. }
  apply get_keys in Hin as [a0 Ha0]. rewrite Ha0. reflexivity.
Qed.

Lemma handle_animation_change_unselected currentAnimation actions :
  target_name currentAnimation (JsObject.keys actions) = None ->
  handle_animation_change true currentAnimation actions
  = map (fun entry => (fst entry, stop (snd entry))) actions.
Proof.
  intros Hname. unfold handle_animation_change. cbn [negb].
  now rewrite keys_stopped, Hname.
Qed.

Lemma handle_animation_change_keys mixer_ready currentAnimation actions :
  JsObject.keys (handle_animation_change mixer_ready currentAnimation actions)
  = JsObject.keys actions.
Proof.
  destruct mixer_ready; [|reflexivity].
  destruct (target_name currentAnimation (JsObject.keys actions)) as [name|] eqn:E.
  - rewrite (handle_animation_change_selected _ _ _ E).
    rewrite keys_set_present; [apply keys_stopped|].
    rewrite keys_stopped. rewrite target_name_cases in E.
    destruct (find _ (JsObject.keys actions)) eqn:E1.
    + injection E as <-. now apply find_some in E1.
    + now apply find_some in E.
  - rewrite (handle_animation_change_unselected _ _ E). apply keys_stopped.
Qed.

(** X13. The animation-change effect is idempotent and keeps the set and
    the order of the clips: run again for the same animation name, it leaves
    every action as the first run left it. The action it selects ends up
    playing, looping and restarted whatever its state was before. *)
Theorem animation_change_is_idempotent mixer_ready currentAnimation actions :
  JsObject.keys (handle_animation_change mixer_ready currentAnimation actions)
  = JsObject.keys actions /\
  handle_animation_change mixer_ready currentAnimation
    (handle_animation_change mixer_ready currentAnimation actions)
  = handle_animation_change mixer_ready currentAnimation actions /\
  (forall name,
     target_name currentAnimation (JsObject.keys actions) = Some name ->
     JsObject.get name (handle_animation_change true currentAnimation actions)
     = Some {| playing := true; looping := true; restarted := true |}).
Proof.
  split; [apply handle_animation_change_keys | split].
  - destruct mixer_ready; [|reflexivity].
    destruct (target_name currentAnimation (JsObject.keys actions)) as [name|] eqn:E.
    + rewrite (handle_animation_change_selected _ _ name)
        by (now rewrite handle_animation_change_keys).
      rewrite (handle_animation_change_selected _ _ _ E).
      rewrite (map_values_set stop), set_set. f_equal.
      rewrite map_map. apply map_ext. now intros [k a].
    + rewrite (handle_animation_change_unselected _ (handle_animation_change _ _ _))
        by (now rewrite handle_animation_change_keys).
      rewrite (handle_animation_change_unselected _ _ E).
      rewrite map_map. apply map_ext. now intros [k a].
  - intros name E. rewrite (handle_animation_change_selected _ _ _ E).
    apply get_set_same.
Qed.

(** X14. With a name that contains "idle" (in any case) among the names of
    [actionsRef.current], an animation-state change leaves exactly one of
    the actions held there playing, whatever name is requested: the action
    of a name that contains the requested name or else of one that contains
    "idle". This speaks of the actions the dictionary holds, as the effect
    enumerates them, and not of an action that a later clip of the same name
    has displaced from it. *)
Theorem idle_clip_guarantees_one_playing currentAnimation actions :
  existsb (matches "idle") (JsObject.keys actions) = true ->
  exists name,
    In name (JsObject.keys actions) /\
    (matches (JsString.toLowerCase currentAnimation) name = true
     \/ matches "idle" name = true) /\
    forall k a,
      JsObject.get k (handle_animation_change true currentAnimation actions) = Some a ->
      playing a = String.eqb k name.
Proof.
  intros Hidle. rewrite find_existsb in Hidle.
  destruct (target_name currentAnimation (JsObject.keys actions)) as [name|] eqn:E.
  - exists name. pose proof E as E'. rewrite target_name_cases in E'.
    assert (In name (JsObject.keys actions)
            /\ (matches (JsString.toLowerCase currentAnimation) name = true
                \/ matches "idle" name = true)) as [Hin Hmatch].
    { destruct (find (matches (JsString.toLowerCase currentAnimation))
                  (JsObject.keys actions)) eqn:E1.
      - injection E' as <-. apply find_some in E1. tauto.
      - apply find_some in E'. tauto. }
    split; [exact Hin | split; [exact Hmatch|]].
    intros k a. rewrite (handle_animation_change_selected _ _ _ E).
    destruct (String.eqb_spec k name) as [->|Hne].
    + rewrite get_set_same. now intros [= <-].
    + rewrite get_set_other by assumption. rewrite get_stopped.
      destruct (JsObject.get k actions); [|discriminate]. now intros [= <-].
  - exfalso. rewrite target_name_cases in E.
    destruct (find (matches (JsString.toLowerCase currentAnimation)) _);
      [discriminate|].
    now rewrite E in Hidle.
Qed.

Lemma idle_clip_witness :
  exists name,
    In name ["Wave"; "Breathing_Idle"] /\
    (matches (JsString.toLowerCase "listening") name = true
     \/ matches "idle" name = true) /\
    forall k a,
      JsObject.get k
        (handle_animation_change true "listening"
           [("Wave", fresh_action); ("Breathing_Idle", fresh_action)]) = Some a ->
      playing a = String.eqb k name.
Proof.
  exact (idle_clip_guarantees_one_playing "listening"
           [("Wave", fresh_action); ("Breathing_Idle", fresh_action)] eq_refl).
Defined.


Lemma lower_ascii_idempotent c :
  JsString.lower_ascii (JsString.lower_ascii c) = JsString.lower_ascii c.
Proof. destruct c as [[] [] [] [] [] [] [] []]; reflexivity. Qed.

Lemma toLowerCase_idempotent s :
  JsString.toLowerCase (JsString.toLowerCase s) = JsString.toLowerCase s.
Proof.
  induction s as [|c s IH]; simpl; [reflexivity|].
  now rewrite lower_ascii_idempotent, IH.
Qed.

Lemma find_map {A B : Type} (f : B -> bool) (g : A -> B) l :
  find f (map g l) = option_map g (find (fun x => f (g x)) l).
Proof.
  induction l as [|x l IH]; simpl; [reflexivity|].
  destruct (f (g x)); [reflexivity | exact IH].
Qed.

(** X15. The clip lookup ignores case on both sides: two requested names
    that differ only in case select the same clip, and lower-casing the
    names of the available clips selects the clip at the same place. *)
Theorem clip_lookup_ignores_case currentAnimation availableAnimations :
  (forall other,
     JsString.toLowerCase other = JsString.toLowerCase currentAnimation ->
     target_name other availableAnimations
     = target_name currentAnimation availableAnimations) /\
  target_name currentAnimation (map JsString.toLowerCase availableAnimations)
  = option_map JsString.toLowerCase (target_name currentAnimation availableAnimations).
Proof.
  split.
  - intros other H. rewrite !target_name_cases. now rewrite H.
  - rewrite !target_name_cases, !find_map.
    assert (forall req,
              find (fun x => matches req (JsString.toLowerCase x)) availableAnimations
              = find (matches req) availableAnimations) as E.
    { intros req. induction availableAnimations as [|x l IH]; simpl; [reflexivity|].
      unfold matches at 1 3. rewrite toLowerCase_idempotent.
      destruct (JsString.includes (JsString.toLowerCase x) req); [reflexivity | exact IH]. }
    rewrite !E.
    now destruct (find (matches (JsString.toLowerCase currentAnimation))
                    availableAnimations).
Qed.

(** *** The initialisation of the clips *)

Lemma initialize_animations_ready clips actions :
  initialize_animations true (Some clips) actions = fold_left register_clip clips actions.
Proof. now destruct clips. Qed.

Lemma find_after_Set_add (f : string -> bool) l : forall acc,
  find f (fold_left JsObject.Set_add l acc)
  = match find f acc with
    | Some x => Some x
    | None => find f l
    end.
Proof.
  assert (forall acc x, find f (acc ++ [x])
                        = match find f acc with
                          | Some y => Some y
                          | None => if f x then Some x else None
                          end) as Happ.
  { induction acc as [|a acc IHa]; intros x; simpl; [reflexivity|].
    destruct (f a); [reflexivity | apply IHa]. }
  induction l as [|x l IH]; intros acc; simpl.
  - now destruct (find f acc).
  - rewrite IH. unfold JsObject.Set_add.
    destruct (in_dec string_dec x acc) as [Hin|Hout].
    + destruct (find f acc) eqn:E; [reflexivity|].
      now rewrite (find_none _ _ E x Hin).
    + rewrite Happ. destruct (find f acc); [reflexivity|].
      now destruct (f x).
Qed.

(** X16. The initialisation stores one action under each clip name of the
    model, playing and looping if the name contains "idle" and not playing
    otherwise, and it keeps the actions stored under any other name (those of
    a model loaded before are never removed). Without a model or group, or
    without animations, it does nothing. *)
Theorem initialization_plays_the_idle_clips ready animations actions :
  (ready = false \/ animations = None \/ animations = Some [] ->
   initialize_animations ready animations actions = actions) /\
  (forall clips,
     ready = true -> animations = Some clips ->
     (forall name,
        In name clips ->
        JsObject.get name (initialize_animations ready animations actions)
        = Some (if matches "idle" name
                then {| playing := true; looping := true; restarted := false |}
                else fresh_action)) /\
     (forall name,
        ~ In name clips ->
        JsObject.get name (initialize_animations ready animations actions)
        = JsObject.get name actions)).
Proof.
  split.
  - intros [ -> | [ -> | -> ] ]; [reflexivity | now destruct ready | now destruct ready].
  - intros clips -> ->. rewrite initialize_animations_ready.
    pose proof (get_assign_each
                  (fun name => if matches "idle" name
                               then play (setLoopRepeat fresh_action)
                               else fresh_action) clips actions) as Hget.
    unfold register_clip.
    split; intros name Hname; rewrite Hget;
      destruct (in_dec string_dec name clips); try contradiction; reflexivity.
Qed.

(** *** The actions made and the actions stored *)

Lemma map_entries_set {V W : Type} (g : V -> W) k v (o : dict V) :
  map (fun kv => (fst kv, g (snd kv))) (JsObject.set k v o)
  = JsObject.set k (g v) (map (fun kv => (fst kv, g (snd kv))) o).
Proof.
  induction o as [|[k0 v0] rest IH]; simpl; [reflexivity|].
  destruct (String.eqb k k0); simpl; [reflexivity|]. now rewrite IH.
Qed.

Lemma Forall_set {V : Type} (P : string * V -> Prop) k v (o : dict V) :
  Forall P o -> P (k, v) -> Forall P (JsObject.set k v o).
Proof.
  intros Ho Hkv. induction o as [|[k0 v0] rest IH]; simpl.
  - constructor; [exact Hkv | constructor].
  - inversion Ho as [|? ? H0 Hrest]; subst.
    destruct (String.eqb_spec k k0) as [->|Hne].
    + constructor; assumption.
    + constructor; [exact H0 | exact (IH Hrest)].
Qed.

(** One clip: the dictionary of actions that [actionsRef.current] shows is
    the one [register_clip] gives. *)
Lemma register_on_mixer_stored s name :
  positions_made s ->
  stored_actions (register_on_mixer s name) = register_clip (stored_actions s) name
  /\ positions_made (register_on_mixer s name).
Proof.
  intros Hpos. split.
  - unfold stored_actions, register_clip. cbn [stored register_on_mixer].
    rewrite (map_entries_set (action_at (register_on_mixer s name))).
    f_equal.
    + unfold action_at. cbn [made register_on_mixer].
      rewrite nth_error_app2 by lia. now rewrite Nat.sub_diag.
    + apply map_ext_in. intros [k i] Hin. cbn [fst snd]. f_equal.
      unfold positions_made in Hpos. rewrite Forall_forall in Hpos.
      specialize (Hpos _ Hin). cbn [snd] in Hpos.
      unfold action_at. cbn [made register_on_mixer].
      now rewrite nth_error_app1 by exact Hpos.
  - unfold positions_made in *. cbn [stored made register_on_mixer].
    rewrite length_app. cbn [List.length].
    apply Forall_set; [|cbn [snd]; lia].
    eapply Forall_impl; [|exact Hpos]. intros e He. cbv beta in He. lia.
Qed.

Lemma fold_register_on_mixer_stored clips : forall s,
  positions_made s ->
  stored_actions (fold_left register_on_mixer clips s)
  = fold_left register_clip clips (stored_actions s)
  /\ positions_made (fold_left register_on_mixer clips s).
Proof.
  induction clips as [|name clips IH]; intros s Hpos; cbn [fold_left].
  - split; [reflexivity | exact Hpos].
  - destruct (register_on_mixer_stored s name Hpos) as [Hview Hpos'].
    destruct (IH _ Hpos') as [Hviews Hpos'']. now rewrite Hviews, Hview.
Qed.

(** The initialisation: what [actionsRef.current] shows of the state with
    every action made is what [initialize_animations] gives. *)
Lemma initialize_on_mixer_stored ready animations s :
  positions_made s ->
  stored_actions (initialize_on_mixer ready animations s)
  = initialize_animations ready animations (stored_actions s).
Proof.
  intros Hpos. unfold initialize_on_mixer, initialize_animations.
  destruct ready; [|reflexivity]. cbn [negb].
  destruct animations as [[|clip clips]|]; try reflexivity.
  apply fold_register_on_mixer_stored, Hpos.
Qed.

(** The initialisation makes one action for each clip, in the order of the
    clips: playing and looping for an idle-named clip. *)
Lemma made_after_registering clips : forall s,
  made (fold_left register_on_mixer clips s)
  = made s
    ++ map (fun name =>
              (name,
               if matches "idle" name then play (setLoopRepeat fresh_action)
               else fresh_action)) clips.
Proof.
  induction clips as [|name clips IH]; intros s; cbn [fold_left map].
  - now rewrite app_nil_r.
  - rewrite IH. cbn [made register_on_mixer]. now rewrite <- app_assoc.
Qed.

(** With distinct clip names, the position stored under the name of a clip
    is the position of that clip. *)
Lemma stored_position_of_clip clips :
  NoDup clips ->
  forall i name,
    nth_error clips i = Some name ->
    JsObject.get name (stored (fold_left register_on_mixer clips no_animations)) = Some i.
Proof.
  induction clips as [|x l IH] using rev_ind; intros Hnodup i name Hnth.
  - destruct i; discriminate.
  - apply NoDup_remove in Hnodup as [Hl Hx]. rewrite app_nil_r in Hl, Hx.
    rewrite fold_left_app. cbn [fold_left stored register_on_mixer].
    rewrite made_after_registering. cbn [made no_animations app].
    rewrite length_map.
    destruct (Nat.lt_ge_cases i (List.length l)) as [Hlt|Hge].
    + rewrite nth_error_app1 in Hnth by exact Hlt.
      assert (name <> x) as Hne.
      { intros ->. apply Hx. eapply nth_error_In, Hnth. }
      rewrite get_set_other by exact Hne. now apply IH.
    + rewrite nth_error_app2 in Hnth by exact Hge.
      destruct (i - List.length l)%nat as [|d] eqn:Ed.
      * injection Hnth as <-. rewrite get_set_same. f_equal. lia.
      * destruct d; discriminate.
Qed.

(** Two clips of one idle name: both actions are made and played, and the
    dictionary holds the second only. *)
Example same_named_clips_share_one_entry :
  let s := initialize_on_mixer true (Some ["Idle"; "Idle"]) no_animations in
  map (fun entry => playing (snd entry)) (made s) = [true; true]
  /\ stored s = [("Idle", 1%nat)]
  /\ List.length (stored_actions s) = 1%nat.
Proof. cbv zeta. split; [|split]; reflexivity. Qed.

(** X17. For a model whose clips have distinct names, the dictionary of
    [actionsRef] holds every action the initialisation makes, under the name
    of its clip. On mount the initialisation starts every idle-named clip,
    and the animation-change effect that follows for the state "idle" stops
    them all and restarts the first of them in the order of the model:
    afterwards that clip is the only one playing, and no clip plays when the
    model has no idle-named clip. *)
Theorem mount_plays_the_first_idle_clip clips :
  NoDup clips ->
  let s := initialize_on_mixer true (Some clips) no_animations in
  map fst (made s) = clips /\
  (forall i name a,
     nth_error (made s) i = Some (name, a) -> JsObject.get name (stored s) = Some i) /\
  stored_actions s = initialize_animations true (Some clips) [] /\
  forall k a,
    JsObject.get k (handle_animation_change true "idle" (stored_actions s)) = Some a ->
    playing a = match find (matches "idle") clips with
                | Some name => String.eqb k name
                | None => false
                end.
Proof.
  intros Hnodup s.
  assert (s = fold_left register_on_mixer clips no_animations) as Hs
    by (unfold s; now destruct clips).
  assert (map fst (made s) = clips) as Hmade.
  { rewrite Hs, made_after_registering. cbn [made no_animations app].
    rewrite map_map. cbn [fst]. apply map_id. }
  assert (stored_actions s = initialize_animations true (Some clips) []) as Hview.
  { unfold s. now rewrite initialize_on_mixer_stored by constructor. }
  split; [exact Hmade | split; [|split; [exact Hview|]]].
  - intros i name a Hnth. rewrite Hs. apply stored_position_of_clip; [exact Hnodup|].
    rewrite <- Hmade. rewrite nth_error_map, Hnth. reflexivity.
  - intros k a. rewrite Hview, initialize_animations_ready.
    set (actions := fold_left register_clip clips []).
    assert (target_name "idle" (JsObject.keys actions) = find (matches "idle") clips) as Ht.
    { rewrite target_name_cases.
      change (JsString.toLowerCase "idle") with "idle".
      assert (find (matches "idle") (JsObject.keys actions) = find (matches "idle") clips)
        as ->.
      { unfold actions, register_clip.
        rewrite (keys_assign_each_in_order
                   (fun name => if matches "idle" name
                                then play (setLoopRepeat fresh_action)
                                else fresh_action)).
        now rewrite find_after_Set_add. }
      now destruct (find (matches "idle") clips). }
    destruct (find (matches "idle") clips) as [name|] eqn:E.
    + rewrite (handle_animation_change_selected _ _ _ Ht).
      destruct (String.eqb_spec k name) as [->|Hne].
      * rewrite get_set_same. now intros [= <-].
      * rewrite get_set_other by assumption. rewrite get_stopped.
        destruct (JsObject.get k actions); [|discriminate]. now intros [= <-].
    + rewrite (handle_animation_change_unselected _ _ Ht), get_stopped.
      destruct (JsObject.get k actions); [|discriminate]. now intros [= <-].
Qed.

Lemma mount_plays_witness :
  exists a,
    JsObject.get "idle_b"
      (handle_animation_change true "idle"
         (stored_actions
            (initialize_on_mixer true (Some ["Idle_A"; "Wave"; "idle_b"]) no_animations)))
    = Some a /\
    playing a = false.
Proof.
  assert (NoDup ["Idle_A"; "Wave"; "idle_b"]) as Hnodup.
  { apply distinct_NoDup. reflexivity. }
  destruct (mount_plays_the_first_idle_clip ["Idle_A"; "Wave"; "idle_b"] Hnodup)
    as (_ & _ & _ & Hplay).
  eexists. split; [reflexivity|].
  exact (Hplay "idle_b" _ eq_refl).
Defined.


End CharacterFacts.

(** ** The component App *)

Module AppFacts.
Import App.

(** *** The viseme data and the pending intervals *)

Lemma toggleListening_settled tauri st :
  visemeData st = None -> settled (toggleListening tauri st).
Proof.
  intros Hv. unfold toggleListening, settled.
  destruct (isListening st); destruct tauri; cbn [fst snd];
    (split; [exact Hv | repeat constructor]).
Qed.

Lemma toggleSpeaking_settled tauri st :
  visemeData st = None -> settled (toggleSpeaking tauri st).
Proof.
  intros Hv. unfold toggleSpeaking, settled.
  destruct (isSpeaking st) eqn:Hs; destruct tauri; cbn [fst snd];
    (split; [first [exact Hv | reflexivity] | repeat constructor]).
Qed.

Lemma resume_settled call reply st :
  visemeData st = None -> idle_timer (Awaiting call) -> settled (resume call reply st).
Proof.
  intros Hv Hcall. unfold resume, settled.
  destruct call as [| | |seen]; try destruct reply as [result|];
    try destruct (truthy result); cbn [fst snd];
    (split; [first [exact Hv | reflexivity] | repeat constructor; exact Hcall]).
Qed.

Lemma fire_settled t pending : forall position st,
  settled (st, pending) -> settled (fire position t pending st).
Proof.
  unfold settled.
  induction pending as [|work pending IH]; intros position st (Hv & Ht);
    cbn [fst snd] in *.
  - destruct position; cbn [fire fst snd]; auto.
  - inversion Ht as [|? ? Hwork Hrest]; subst.
    destruct position as [|position]; cbn [fire].
    + destruct work as [|seen index|call].
      * cbn. auto.
      * destruct Hwork as [-> ->]. cbn. auto.
      * cbn. auto.
    + specialize (IH position st (conj Hv Hrest)).
      destruct (fire position t pending st) as [st' rest'].
      cbn [fst snd] in *. destruct IH as (Hv' & Ht'). auto.
Qed.

Lemma settle_settled reply pending : forall position st,
  settled (st, pending) -> settled (settle position reply pending st).
Proof.
  unfold settled.
  induction pending as [|work pending IH]; intros position st (Hv & Ht);
    cbn [fst snd] in *.
  - destruct position; cbn [settle fst snd]; auto.
  - inversion Ht as [|? ? Hwork Hrest]; subst.
    destruct position as [|position]; cbn [settle].
    + destruct work as [|seen index|call]; [cbn; auto | cbn; auto |].
      pose proof (resume_settled call reply st Hv Hwork) as (Hv' & Ht').
      destruct (resume call reply st) as [st' started].
      cbn [fst snd] in *. split; [exact Hv'|]. apply Forall_app. auto.
    + specialize (IH position st (conj Hv Hrest)).
      destruct (settle position reply pending st) as [st' rest'].
      cbn [fst snd] in *. destruct IH as (Hv' & Ht'). auto.
Qed.

Lemma step_settled sys e : settled sys -> settled (step sys e).
Proof.
  destruct sys as [st pending]. intros Hsys.
  pose proof Hsys as (Hv & Ht). cbn [fst snd] in Hv, Ht.
  destruct e as [tauri|tauri|emotion|position t|position reply]; cbn [step].
  - pose proof (toggleListening_settled tauri st Hv) as (Hv' & Ht').
    destruct (toggleListening tauri st) as [st' started].
    split; [exact Hv'|]. apply Forall_app. auto.
  - pose proof (toggleSpeaking_settled tauri st Hv) as (Hv' & Ht').
    destruct (toggleSpeaking tauri st) as [st' started].
    split; [exact Hv'|]. apply Forall_app. auto.
  - split; [exact Hv | exact Ht].
  - now apply fire_settled.
  - now apply settle_settled.
Qed.

Lemma reach_settled events : settled (reach events).
Proof.
  unfold reach. induction events as [|e events IH] using rev_ind.
  - split; [reflexivity | constructor].
  - rewrite fold_left_app. cbn [fold_left]. now apply step_settled.
Qed.

(** *** The two flags and the processing mode *)

(** A timer that fires leaves the two flags and the processing mode as they
    are. *)
Lemma fire_keeps_flags t pending : forall position st,
  isListening (fst (fire position t pending st)) = isListening st /\
  isSpeaking (fst (fire position t pending st)) = isSpeaking st /\
  processingMode (fst (fire position t pending st)) = processingMode st.
Proof.
  induction pending as [|work pending IH]; intros position st.
  - destruct position; cbn; auto.
  - destruct position as [|position]; cbn [fire].
    + destruct work as [|seen index|call]; [cbn; auto | | cbn; auto].
      destruct (interval_tick seen index t) as [v [timer|]]; cbn; auto.
    + specialize (IH position st).
      destruct (fire position t pending st) as [st' rest']. exact IH.
Qed.

Lemma toggleListening_exclusive tauri st :
  exclusive st -> exclusive (fst (toggleListening tauri st)).
Proof.
  intros (Hex & Hsp & Hli). unfold toggleListening, exclusive.
  destruct (isListening st) eqn:Hl; destruct tauri; cbn;
    rewrite ?Hl; repeat split; auto; try discriminate.
Qed.

Lemma toggleSpeaking_exclusive tauri st :
  exclusive st -> exclusive (fst (toggleSpeaking tauri st)).
Proof.
  intros (Hex & Hsp & Hli). unfold toggleSpeaking, exclusive.
  destruct (isSpeaking st) eqn:Hs; destruct tauri; cbn;
    rewrite ?Hs; repeat split; auto; try discriminate;
    try (destruct (isListening st); reflexivity).
Qed.

Lemma resume_exclusive call reply st :
  exclusive st -> exclusive (fst (resume call reply st)).
Proof.
  intros (Hex & Hsp & Hli). unfold resume, exclusive.
  destruct call as [| | |seen]; try destruct reply as [result|];
    try destruct (truthy result); cbn;
    repeat split; auto; try discriminate;
    try (destruct (isListening st); reflexivity).
Qed.

Lemma settle_exclusive reply pending : forall position st,
  exclusive st -> exclusive (fst (settle position reply pending st)).
Proof.
  induction pending as [|work pending IH]; intros position st Hex.
  - destruct position; exact Hex.
  - destruct position as [|position]; cbn [settle].
    + destruct work as [|seen index|call]; [exact Hex | exact Hex |].
      pose proof (resume_exclusive call reply st Hex) as H.
      destruct (resume call reply st) as [st' started]. exact H.
    + specialize (IH position st Hex).
      destruct (settle position reply pending st) as [st' rest']. exact IH.
Qed.

Lemma step_exclusive sys e : exclusive (fst sys) -> exclusive (fst (step sys e)).
Proof.
  destruct sys as [st pending]. cbn [fst]. intros Hex.
  destruct e as [tauri|tauri|emotion|position t|position reply]; cbn [step].
  - pose proof (toggleListening_exclusive tauri st Hex) as H.
    destruct (toggleListening tauri st) as [st' started]. exact H.
  - pose proof (toggleSpeaking_exclusive tauri st Hex) as H.
    destruct (toggleSpeaking tauri st) as [st' started]. exact H.
  - exact Hex.
  - destruct (fire_keeps_flags t pending position st) as (Hl & Hs & Hm).
    unfold exclusive in *. rewrite Hl, Hs, Hm. exact Hex.
  - now apply settle_exclusive.
Qed.

Lemma reach_exclusive events : exclusive (fst (reach events)).
Proof.
  unfold reach. induction events as [|e events IH] using rev_ind.
  - cbn. repeat split; auto; discriminate.
  - rewrite fold_left_app. cbn [fold_left]. now apply step_exclusive.
Qed.

(** *** Without the Tauri internals *)

Lemma fire_none_awaiting t pending : forall position st,
  none_awaiting pending -> none_awaiting (snd (fire position t pending st)).
Proof.
  unfold none_awaiting.
  induction pending as [|work pending IH]; intros position st Hno.
  - destruct position; cbn; constructor.
  - inversion Hno as [|? ? Hwork Hrest]; subst.
    destruct position as [|position]; cbn [fire].
    + destruct work as [|seen index|call]; [exact Hrest | | contradiction].
      unfold interval_tick.
      destruct ((index <? List.length visemes)%nat && seen); cbn [snd]; auto.
    + specialize (IH position st Hrest).
      destruct (fire position t pending st) as [st' rest']. cbn [snd] in *. auto.
Qed.

Lemma settle_none_awaiting reply pending : forall position st,
  none_awaiting pending -> settle position reply pending st = (st, pending).
Proof.
  unfold none_awaiting.
  induction pending as [|work pending IH]; intros position st Hno.
  - destruct position; reflexivity.
  - inversion Hno as [|? ? Hwork Hrest]; subst.
    destruct position as [|position]; cbn [settle].
    + destruct work as [|seen index|call]; [reflexivity | reflexivity | contradiction].
    + now rewrite (IH position st Hrest).
Qed.

Lemma step_without_tauri sys e :
  uses_tauri e = false ->
  coherent (fst sys) /\ none_awaiting (snd sys) ->
  coherent (fst (step sys e)) /\ none_awaiting (snd (step sys e)).
Proof.
  destruct sys as [st pending]. cbn [fst snd]. intros He ([Hmode Hex] & Hno).
  destruct e as [tauri|tauri|emotion|position t|position reply]; cbn [step].
  - cbn in He. subst tauri. unfold toggleListening, coherent, none_awaiting.
    destruct (isListening st) eqn:Hl; destruct (isSpeaking st) eqn:Hs;
      try discriminate Hex; cbn; rewrite ?Hl, ?Hs;
      (split; [split; reflexivity|]); rewrite ?app_nil_r; auto;
      apply Forall_app; split; auto.
  - cbn in He. subst tauri. unfold toggleSpeaking, coherent, none_awaiting.
    destruct (isListening st) eqn:Hl; destruct (isSpeaking st) eqn:Hs;
      try discriminate Hex; cbn; rewrite ?Hl, ?Hs;
      (split; [split; reflexivity|]); rewrite ?app_nil_r; auto;
      apply Forall_app; split; auto.
  - cbn. split; [split; assumption | exact Hno].
  - destruct (fire_keeps_flags t pending position st) as (Hl & Hs & Hm).
    split; [|now apply fire_none_awaiting].
    unfold coherent. rewrite Hl, Hs, Hm. split; assumption.
  - rewrite (settle_none_awaiting reply pending position st Hno). cbn [fst snd].
    split; [split; assumption | exact Hno].
Qed.

Lemma reach_without_tauri events :
  Forall (fun e => uses_tauri e = false) events ->
  coherent (fst (reach events)) /\ none_awaiting (snd (reach events)).
Proof.
  unfold reach. induction events as [|e events IH] using rev_ind; intros Hall.
  - cbn. split; [split; reflexivity | constructor].
  - apply Forall_app in Hall as [Hevents He]. inversion He as [|? ? He' _]; subst.
    rewrite fold_left_app. cbn [fold_left].
    apply step_without_tauri; [exact He' | exact (IH Hevents)].
Qed.

(** X18. Whatever handlers are called, with or without the Tauri internals,
    however and whenever each awaited [invoke] settles, and whenever the
    timers fire, listening and speaking are never on together, and a
    processing mode of speaking or listening names a flag that is on. In a
    window without the Tauri internals, where no handler awaits, the
    processing mode names exactly the flag that is on (idle when neither
    is). With the Tauri internals it need not: the continuation of a
    [toggleListening] that awaited [stop_listening] sets the mode to idle
    after a [toggleSpeaking] has turned speaking on. *)
Theorem listening_and_speaking_exclude_each_other events :
  isListening (fst (reach events)) && isSpeaking (fst (reach events)) = false /\
  (processingMode (fst (reach events)) = Speaking ->
   isSpeaking (fst (reach events)) = true) /\
  (processingMode (fst (reach events)) = Listening ->
   isListening (fst (reach events)) = true) /\
  (Forall (fun e => uses_tauri e = false) events ->
   processingMode (fst (reach events))
   = (if isSpeaking (fst (reach events)) then Speaking
      else if isListening (fst (reach events)) then Listening else Idle)) /\
  (let interleaved :=
     [ToggleListening true; ToggleListening true; ToggleSpeaking true;
      Settle 1 (Resolved None)] in
   isSpeaking (fst (reach interleaved)) = true /\
   processingMode (fst (reach interleaved)) = Idle).
Proof.
  destruct (reach_exclusive events) as (Hex & Hsp & Hli).
  split; [exact Hex | split; [exact Hsp | split; [exact Hli | split]]].
  - intros Hall. apply (reach_without_tauri events Hall).
  - split; reflexivity.
Qed.

Lemma exclusion_witness :
  processingMode (fst (reach [ToggleListening false; ToggleSpeaking false])) = Speaking.
Proof.
  destruct (listening_and_speaking_exclude_each_other
              [ToggleListening false; ToggleSpeaking false]) as (_ & _ & _ & Hmode & _).
  rewrite Hmode; [reflexivity|].
  repeat constructor.
Defined.

(** X19. The simulated visemes never arrive. The interval that
    [toggleSpeaking] starts closes over the [isSpeaking] of the render in
    which speaking was still off, so its first run clears the interval and
    sets the viseme data to undefined: in every reachable state the viseme
    data is undefined and every live interval is still at index 0. *)
Theorem simulated_visemes_never_arrive events :
  visemeData (fst (reach events)) = None /\
  forall seen index,
    In (VisemeInterval seen index) (snd (reach events)) ->
    seen = false /\ index = 0%nat /\
    forall t, interval_tick seen index t = (None, None).
Proof.
  destruct (reach_settled events) as (Hv & Ht).
  split; [exact Hv|]. intros seen index Hin.
  rewrite Forall_forall in Ht. destruct (Ht _ Hin) as [-> ->].
  repeat split; reflexivity.
Qed.

(** X20. Under this App the lip-sync hook never moves the mouth: over any
    succession of reachable states of the component, the props it hands
    down keep the hook in its not-speaking branch, so the map of morph
    targets stays empty, the current viseme "sil" and the hook inactive. *)
Theorem lip_sync_stays_empty_under_the_app traces :
  exists st',
    LipSync.run (map (fun events => lip_sync_props (fst (reach events))) traces)
      LipSync.initial = Some st' /\
    LipSync.lipSyncMorphTargets st' = [] /\
    LipSync.currentViseme st' = "sil" /\
    LipSync.isActive st' = false.
Proof.
  assert (forall st,
            LipSync.lipSyncMorphTargets st = [] ->
            LipSync.currentViseme st = "sil" -> LipSync.isActive st = false ->
            exists st',
              LipSync.run (map (fun events => lip_sync_props (fst (reach events))) traces)
                st = Some st' /\
              LipSync.lipSyncMorphTargets st' = [] /\
              LipSync.currentViseme st' = "sil" /\
              LipSync.isActive st' = false) as H.
  { induction traces as [|events traces IH]; intros st H1 H2 H3; simpl.
    - exists st. auto.
    - rewrite LipSyncFacts.apply_viseme_silent.
      + apply IH; [|reflexivity|reflexivity].
        cbn [LipSync.lipSyncMorphTargets]. now rewrite H1.
      + right. simpl. apply (reach_settled events). }
  apply H; reflexivity.
Qed.

End AppFacts.
